(** * Snake game: the simulation core (game.ts) and its driver (SnakeGame.tsx)

    A shallow embedding of the tick function [stepSnake], of the food
    placement [randPointExcluding] and of the parts of the React driver
    that own the tick interval, followed by the properties proved of them.

    Modelling conventions.
    - A TypeScript [number] holding a grid coordinate is an integer of [Z];
      the template literal of [keyOf] prints it in decimal, with a leading
      minus sign for a negative one (stdpp's [pretty]).
    - A [Set<string>] is a [gset string]; [exclude.size] is [size], and
      [exclude.has(k)] is [bool_decide (k ∈ exclude)].
    - [Math.random] is a source [rng : nat → Q] of numbers read in order;
      the position of the next unread number is threaded through the calls.
    - The tick interval, a [number] of milliseconds, is a rational of [Q]:
      the product with 0.95 is exact where the code rounds it to a binary64
      number. The statements about the interval are those that the rounding
      keeps: its order, the floor of 40 ms, and the values at which the
      floor is reached with room to spare.
    - The updater of a tick reads the food from the closure of the effect
      that scheduled it, not from the state: [Frame.updater] takes that
      food as an argument, and [Driver.tick] is the case in which it is the
      food of the state.
    - A function that can throw or loop returns an [outcome]. *)

From stdpp Require Import base numbers list strings pretty gmap sets relations.
From Stdlib Require Import Ascii QArith Qround Qminmax Qabs Qpower Lqa.

Local Open Scope Z_scope.

(** ** Effects *)

(** What a call can do: return, throw, or still be in its loop when the
    fuel given to the model is used up. *)
Inductive outcome (A : Type) : Type :=
  | Returns (a : A)
  | Throws (msg : string)
  | Spins.
Arguments Returns {A} a.
Arguments Throws {A} msg.
Arguments Spins {A}.

(** ** game.ts *)

Module Game.

(** [export type Point = [number, number]]: row first, column second. *)
Definition Point : Type := Z * Z.

(** [export type Direction = 'RIGHT' | 'LEFT' | 'UP' | 'DOWN'] *)
Inductive Direction : Set := RIGHT | LEFT | UP | DOWN.

Definition CLASSIC_GRID : Z := 10.
Definition LARGE_GRID : Z := 20.

(** [keyOf = (p) => `${p[0]},${p[1]}`] *)
Definition keyOf (p : Point) : string := pretty p.1 +:+ "," +:+ pretty p.2.

(** [Math.floor(Math.random() * gridSize)], reading the number at position
    [n] of the source. *)
Definition randCoord (rng : nat → Q) (gridSize : Z) (n : nat) : Z :=
  Qfloor (rng n * inject_Z gridSize).

(** The [while (true)] loop of [randPointExcluding]: one iteration per unit
    of fuel, two numbers read per iteration (row, then column). *)
Fixpoint rejectionLoop (exclude : gset string) (gridSize : Z)
    (rng : nat → Q) (fuel n : nat) : outcome Point * nat :=
  match fuel with
  | O => (Spins, n)
  | S fuel' =>
      let p : Point := (randCoord rng gridSize n, randCoord rng gridSize (S n)) in
      let k := keyOf p in
      if negb (bool_decide (k ∈ exclude)) then (Returns p, S (S n))
      else rejectionLoop exclude gridSize rng fuel' (S (S n))
  end.

(** [randPointExcluding(exclude, gridSize)]: the result and the position of
    the source after the call. *)
Definition randPointExcluding (exclude : gset string) (gridSize : Z)
    (rng : nat → Q) (fuel n : nat) : outcome Point * nat :=
  let max := gridSize * gridSize in
  if Z.of_nat (size exclude) >=? max
  then (Throws "No available points to place food", n)
  else rejectionLoop exclude gridSize rng fuel n.

(** The object [{ snake, ate, collision }] returned by [stepSnake]. *)
Record StepResult : Type := mkStep {
  snake : list Point;
  ate : bool;
  collision : bool
}.

(** The four assignments to [newHead] before the wrap. *)
Definition shifted (head : Point) (dir : Direction) : Point :=
  match dir with
  | RIGHT => (head.1, head.2 + 1)
  | LEFT => (head.1, head.2 - 1)
  | UP => (head.1 - 1, head.2)
  | DOWN => (head.1 + 1, head.2)
  end.

(** [if (x < 0) x = gridSize - 1; else if (x >= gridSize) x = 0], applied
    to one coordinate. *)
Definition wrapCoord (x gridSize : Z) : Z :=
  if x <? 0 then gridSize - 1
  else if x >=? gridSize then 0
  else x.

(** [newHead] after the wrap of both coordinates. *)
Definition newHeadOf (head : Point) (dir : Direction) (gridSize : Z) : Point :=
  let moved := shifted head dir in
  (wrapCoord moved.1 gridSize, wrapCoord moved.2 gridSize).

(** [stepSnake(prev, dir, food, gridSize)]. On an empty [prev], [prev[0]]
    is [undefined] and reading [head[0]] throws: [None]. *)
Definition stepSnake (prev : list Point) (dir : Direction) (food : Point)
    (gridSize : Z) : option StepResult :=
  match prev with
  | [] => None
  | head :: _ =>
      let newHead := newHeadOf head dir gridSize in
      let occupied : gset string := list_to_set (keyOf <$> prev) in
      let tail := List.last prev head in
      let willEat := (newHead.1 =? food.1) && (newHead.2 =? food.2) in
      let tailKey := keyOf tail in
      let newHeadKey := keyOf newHead in
      let hitSelf :=
        bool_decide (newHeadKey ∈ occupied)
        && negb (bool_decide (newHeadKey = tailKey) && negb willEat) in
      if hitSelf then Some (mkStep prev false true)
      else
        let newSnake := newHead :: prev in
        let newSnake := if negb willEat then removelast newSnake else newSnake in
        Some (mkStep newSnake willEat false)
  end.

End Game.

Import Game.

(** ** Grid vocabulary used by the statements *)

(** A cell address of the grid: both coordinates in [[0, gridSize)]. *)
Definition inGrid (gridSize : Z) (p : Point) : Prop :=
  0 ≤ p.1 < gridSize ∧ 0 ≤ p.2 < gridSize.

(** All cells of the grid, row by row, as the nested [for] loops of
    game.test.ts enumerate them. *)
Definition gridCells (gridSize : Z) : list Point :=
  r ← seqZ 0 gridSize; (λ c, (r, c)) <$> seqZ 0 gridSize.

(** The exclusion set built by the test 'places food only on available
    cells': the key of every cell but [free]. *)
Definition allCellsBut (gridSize : Z) (free : Point) : gset string :=
  list_to_set (keyOf <$> filter (λ p, p ≠ free) (gridCells gridSize)).

(** A source of random numbers as [Math.random] promises them: each one in
    [[0, 1)]. *)
Definition unitSource (rng : nat → Q) : Prop :=
  ∀ n, (0 <= rng n)%Q ∧ (rng n < 1)%Q.

(** The point drawn by the iteration of the sampling loop that starts at
    position [n] of the source. *)
Definition drawAt (rng : nat → Q) (gridSize : Z) (n : nat) : Point :=
  (randCoord rng gridSize n, randCoord rng gridSize (S n)).

(** A source of random numbers for the test of game.test.ts with one
    free cell: its fourth draw is (3,2) on a grid of side 4, the draws
    before and after it are (1,1). *)
Definition fourthDrawHits (n : nat) : Q :=
  match n with
  | 6%nat => 0.8
  | 7%nat => 0.5
  | _ => 0.3
  end.

(** The head stands on the edge of the grid that [dir] points off. *)
Definition onExitEdge (gridSize : Z) (head : Point) (dir : Direction) : Prop :=
  match dir with
  | RIGHT => head.2 = gridSize - 1
  | LEFT => head.2 = 0
  | UP => head.1 = 0
  | DOWN => head.1 = gridSize - 1
  end.

(** The cell on the opposite edge of the same row or column. *)
Definition oppositeEdge (gridSize : Z) (head : Point) (dir : Direction) : Point :=
  match dir with
  | RIGHT => (head.1, 0)
  | LEFT => (head.1, gridSize - 1)
  | UP => (gridSize - 1, head.2)
  | DOWN => (0, head.2)
  end.

(** A string without the separator character of [keyOf]. *)
Fixpoint commaFree (s : string) : Prop :=
  match s with
  | EmptyString => True
  | String c s' => c ≠ ","%char ∧ commaFree s'
  end.

(** ** SnakeGame.tsx *)

Module Driver.

Inductive SpeedLabel : Set := slow | normal | fast.

(** [SPEED_LEVELS = { slow: 300, normal: 200, fast: 120 }] *)
Definition SPEED_LEVELS (l : SpeedLabel) : Q :=
  match l with
  | slow => 300
  | normal => 200
  | fast => 120
  end.

Inductive BoardPreset : Set := classic | large.

(** [BOARD_PRESETS]: the pair (grid, cellSize) of each preset. *)
Definition BOARD_PRESETS (b : BoardPreset) : Z * Z :=
  match b with
  | classic => (CLASSIC_GRID, 60)
  | large => (LARGE_GRID, 50)
  end.

Definition INITIAL_SNAKE : list Point := [(0, 2); (0, 1); (0, 0)].

Definition OPPOSITES (d : Direction) : Direction :=
  match d with
  | RIGHT => LEFT
  | LEFT => RIGHT
  | UP => DOWN
  | DOWN => UP
  end.

Definition Direction_eqb (a b : Direction) : bool :=
  match a, b with
  | RIGHT, RIGHT | LEFT, LEFT | UP, UP | DOWN, DOWN => true
  | _, _ => false
  end.

Definition SpeedLabel_eqb (a b : SpeedLabel) : bool :=
  match a, b with
  | slow, slow | normal, normal | fast, fast => true
  | _, _ => false
  end.


(** The state and refs of the component that the game logic reads and
    writes. *)
Record GameState : Type := mkState {
  boardPreset : BoardPreset;
  snake : list Point;
  food : Point;
  gameOver : bool;
  score : Z;
  speedLabel : SpeedLabel;
  directionRef : Direction;
  running : bool;
  msPerTickRef : Q
}.

(** [const gridSize = BOARD_PRESETS[boardPreset].grid] *)
Definition gridSize (st : GameState) : Z := (BOARD_PRESETS (boardPreset st)).1.

(** [handleKeyDown], for a key that [KEY_MAP] sends to [nextDir]. *)
Definition handleKeyDown (nextDir : Direction) (st : GameState) : GameState :=
  if negb (Direction_eqb (OPPOSITES nextDir) (directionRef st))
  then mkState (boardPreset st) (snake st) (food st) (gameOver st) (score st)
         (speedLabel st) nextDir (running st) (msPerTickRef st)
  else st.

(** The Pause/Resume button: [setRunning(r => !r)]. *)
Definition togglePause (st : GameState) : GameState :=
  mkState (boardPreset st) (snake st) (food st) (gameOver st) (score st)
    (speedLabel st) (directionRef st) (negb (running st)) (msPerTickRef st).

(** One game tick: the updater passed to [setSnake] in [loop], with the
    state and ref writes it performs, when the closure of the loop effect
    holds the food of the state, as it does for the first tick after a
    render. [Frame.updater] is the updater for any food in the closure. *)
Definition tick (st : GameState) (rng : nat → Q) (fuel n : nat)
    : outcome GameState * nat :=
  match stepSnake (snake st) (directionRef st) (food st) (gridSize st) with
  | None => (Throws "TypeError", n)
  | Some r =>
      let next := Game.snake r in
      if collision r then
        (Returns (mkState (boardPreset st) (snake st) (food st) true
                    (score st) (speedLabel st) (directionRef st)
                    (running st) (msPerTickRef st)), n)
      else if ate r then
        let sset : gset string := list_to_set (keyOf <$> next) in
        match randPointExcluding sset (gridSize st) rng fuel n with
        | (Returns p, n') =>
            (Returns (mkState (boardPreset st) next p (gameOver st)
                        (score st + 1) (speedLabel st) (directionRef st)
                        (running st)
                        (Qmax 40 (msPerTickRef st * 0.95))), n')
        | (Throws msg, n') => (Throws msg, n')
        | (Spins, n') => (Spins, n')
        end
      else
        (Returns (mkState (boardPreset st) next (food st) (gameOver st)
                    (score st) (speedLabel st) (directionRef st)
                    (running st) (msPerTickRef st)), n)
  end.

(** [reset]: the writes to [directionRef], [snake], [gameOver], [score]
    and [msPerTickRef], then the new food. *)
Definition reset (st : GameState) (rng : nat → Q) (fuel n : nat)
    : outcome GameState * nat :=
  let initial := INITIAL_SNAKE in
  let s : gset string := list_to_set (keyOf <$> initial) in
  match randPointExcluding s (gridSize st) rng fuel n with
  | (Returns p, n') =>
      (Returns (mkState (boardPreset st) initial p false 0 (speedLabel st)
                  RIGHT (running st) (SPEED_LEVELS normal)), n')
  | (Throws msg, n') => (Throws msg, n')
  | (Spins, n') => (Spins, n')
  end.

(** The New button: [setRunning(true); reset()]. *)
Definition newGame (st : GameState) (rng : nat → Q) (fuel n : nat)
    : outcome GameState * nat :=
  reset (mkState (boardPreset st) (snake st) (food st) (gameOver st)
           (score st) (speedLabel st) (directionRef st) true
           (msPerTickRef st)) rng fuel n.

(** The difficulty selector: [setSpeedLabel(l)], followed by the effect
    on [speedLabel], [msPerTickRef.current = SPEED_LEVELS[speedLabel]],
    which runs only when the label changes. *)
Definition setSpeedLabel (l : SpeedLabel) (st : GameState) : GameState :=
  if SpeedLabel_eqb l (speedLabel st) then st
  else mkState (boardPreset st) (snake st) (food st) (gameOver st) (score st)
         l (directionRef st) (running st) (SPEED_LEVELS l).


(** Play with one tick per render: ticks while running and not over, each
    reading the current food, direction requests, pause and resume. The
    frames of several ticks are those of [Frame.loop], and [Frame.play]
    covers every schedule of the updaters. *)
Inductive plays : GameState → GameState → Prop :=
  | plays_tick st st' rng fuel n n' :
      running st = true → gameOver st = false →
      tick st rng fuel n = (Returns st', n') →
      plays st st'
  | plays_key st nextDir :
      plays st (handleKeyDown nextDir st)
  | plays_pause st :
      plays st (togglePause st).


End Driver.

(** ** Further vocabulary *)

(** Membership of the grid is decidable. *)
#[global] Instance inGrid_dec (gridSize : Z) (p : Point) :
  Decision (inGrid gridSize p).
Proof. unfold inGrid. apply _. Defined.

(** The displacement of one move, before the wrap. *)
Definition stepOffset (dir : Direction) : Z * Z :=
  match dir with
  | RIGHT => (0, 1)
  | LEFT => (0, -1)
  | UP => (-1, 0)
  | DOWN => (1, 0)
  end.

(** The head after [k] moves in the same direction on an empty board. *)
Definition walk (k : nat) (head : Point) (dir : Direction) (gridSize : Z) : Point :=
  Nat.iter k (λ h, newHeadOf h dir gridSize) head.

(** A random number that [Math.floor(u * gridSize)] sends to [x]: the middle
    of the interval of such numbers. *)
Definition midpointOf (x gridSize : Z) : Q := (2 * x + 1) # (2 * Z.to_pos gridSize).

(** A source whose draw at position [n] is the point [p]. *)
Definition sourceOf (p : Point) (gridSize : Z) (n : nat) : nat → Q :=
  λ k, if Nat.eqb k n then midpointOf p.1 gridSize else midpointOf p.2 gridSize.

(** The shape of a game in which every tick so far has read the current
    food: a snake without a repeated cell, inside the grid, not under the
    food, three segments at the start and one more per point scored. *)
Definition wellFormed (st : Driver.GameState) : Prop :=
  NoDup (Driver.snake st) ∧
  Forall (inGrid (Driver.gridSize st)) (Driver.snake st) ∧
  (Driver.food st ∉ Driver.snake st) ∧
  0 ≤ Driver.score st ∧
  Z.of_nat (length (Driver.snake st)) = 3 + Driver.score st.

(** The cells of the grid along a path that runs the even rows from left to
    right and the odd rows from right to left. *)
Definition serpentine (gridSize : Z) : list Point :=
  r ← seqZ 0 gridSize;
  if Z.even r then (λ c, (r, c)) <$> seqZ 0 gridSize
  else reverse ((λ c, (r, c)) <$> seqZ 0 gridSize).


(** ** SnakeGame.tsx: best score, board metrics, board cells *)

Module BestScore.

(** The key of the best score in [localStorage]. *)
Definition STORAGE_KEY : string := "snakeGameHighScore".

(** [StrWhiteSpaceChar], among the code units below 256: TAB, LF, VT, FF,
    CR, SP and NBSP. *)
Definition isWhiteSpace (c : ascii) : bool :=
  let k := nat_of_ascii c in
  (Nat.leb 9 k && Nat.leb k 13) || Nat.eqb k 32 || Nat.eqb k 160.

(** The value of a decimal digit: the code units 48 to 57. *)
Definition digitValue (c : ascii) : option N :=
  let k := nat_of_ascii c in
  if Nat.leb 48 k && Nat.leb k 57 then Some (N.of_nat (k - 48)) else None.

Fixpoint trimStart (s : string) : string :=
  match s with
  | String c s' => if isWhiteSpace c then trimStart s' else s
  | EmptyString => EmptyString
  end.

(** The value of the longest prefix of digits, read after [acc]. *)
Fixpoint parseDigits (acc : N) (s : string) : N :=
  match s with
  | String c s' =>
      match digitValue c with
      | Some d => parseDigits (acc * 10 + d) s'
      | None => acc
      end
  | EmptyString => acc
  end.

(** [parseInt(s, 10)]: leading blanks, an optional sign, then the longest
    prefix of digits; [None] is NaN, returned when there is no digit. *)
Definition parseInt (s : string) : option Z :=
  let trimmed := trimStart s in
  let '(sign, digits) :=
    match trimmed with
    | String "-" s' => (-1, s')
    | String "+" s' => (1, s')
    | _ => (1, trimmed)
    end in
  match digits with
  | String c _ =>
      match digitValue c with
      | Some _ => Some (sign * Z.of_N (parseDigits 0 digits))
      | None => None
      end
  | EmptyString => None
  end.

(** [getHighScore]. [localStorage] is [None] when reading or writing it
    throws, and the content of the store otherwise. *)
Definition getHighScore (localStorage : option (gmap string string))
    : option Z :=
  match localStorage with
  | None => Some 0
  | Some items =>
      let item :=
        match items !! STORAGE_KEY with
        | Some EmptyString | None => "0"
        | Some s => s
        end in
      parseInt item
  end.

(** [setHighScore]: the store after the call. *)
Definition setHighScore (score : Z) (localStorage : option (gmap string string))
    : option (gmap string string) :=
  match localStorage with
  | None => None
  | Some items => Some (<[STORAGE_KEY := pretty score]> items)
  end.

(** The effect on [gameOver], [score] and [highScore]: the best score kept
    in the state ([None] is NaN) and the store after it. *)
Definition recordHighScore (gameOver : bool) (score : Z)
    (highScore : option Z) (localStorage : option (gmap string string))
    : option Z * option (gmap string string) :=
  let beats :=
    match highScore with
    | Some h => h <? score
    | None => false
    end in
  if gameOver && beats
  then (Some score, setHighScore score localStorage)
  else (highScore, localStorage).

End BestScore.

Module Board.

(** [updateBoardMetrics]: the pair (boardSize, cellSize) passed to
    [setBoardMetrics]. [clientWidth] is [None] when the slot is not
    mounted. *)
Definition updateBoardMetrics (clientWidth : option Q)
    (innerWidth innerHeight : Q) (gridSize baseCellSize : Z) : Z * Z :=
  let slotWidth :=
    match clientWidth with
    | Some w => w
    | None => innerWidth
    end in
  let maxBoardSize := Qmin slotWidth (innerHeight * 0.72) in
  let targetSize := Qmin (inject_Z (gridSize * baseCellSize)) maxBoardSize in
  let nextCellSize := Z.max 24 (Qfloor (targetSize / inject_Z gridSize)) in
  let nextBoardSize := nextCellSize * gridSize in
  (nextBoardSize, nextCellSize).

(** One [div] of the board: its React key and the class names it gets
    besides [cell]. *)
Record Cell : Type := mkCell {
  key : string;
  isSnake : bool;
  isHead : bool;
  isFood : bool
}.

(** The point that the cell of index [index] stands for. *)
Definition pointOfIndex (gridSize index : Z) : Point :=
  (index / gridSize, Z.rem index gridSize).

(** The cells rendered for a snake [head :: rest]: one per index below
    [gridSize * gridSize]. *)
Definition renderCells (head : Point) (rest : list Point) (food : Point)
    (gridSize : Z) : list Cell :=
  let snake := head :: rest in
  let snakeSet : gset string := list_to_set (keyOf <$> snake) in
  let headKey := keyOf head in
  let foodKey := keyOf food in
  let totalCells := gridSize * gridSize in
  (λ index,
     let k := keyOf (pointOfIndex gridSize index) in
     mkCell k (bool_decide (k ∈ snakeSet)) (bool_decide (k = headKey))
       (bool_decide (k = foodKey)))
  <$> seqZ 0 totalCells.

End Board.

(** ** The touch controls of the later SnakeGame.tsx *)

Module Touch.

(** [x > y] on numbers. *)
Definition Qgtb (x y : Q) : bool := negb (Qle_bool x y).

(** The direction that [handleTouchEnd] reads from a swipe. *)
Definition swipeDir (deltaX deltaY : Q) : option Direction :=
  let threshold : Q := 30%Q in
  if Qgtb (Qabs deltaX) (Qabs deltaY) && Qgtb (Qabs deltaX) threshold
  then Some (if Qgtb deltaX 0%Q then RIGHT else LEFT)
  else if Qgtb (Qabs deltaY) threshold
  then Some (if Qgtb deltaY 0%Q then DOWN else UP)
  else None.

(** [handleTouchEnd]: the state after a touch that ends at (clientX,
    clientY); [touchStart] is the content of [touchStartRef], which the
    handler clears at its end and which is not part of [GameState]. *)
Definition handleTouchEnd (touchStart : option (Q * Q)) (clientX clientY : Q)
    (st : Driver.GameState) : Driver.GameState :=
  match touchStart with
  | None => st
  | Some (x, y) =>
      let deltaX := (clientX - x)%Q in
      let deltaY := (clientY - y)%Q in
      match swipeDir deltaX deltaY with
      | Some d =>
          if negb (Driver.Direction_eqb (Driver.OPPOSITES d)
                     (Driver.directionRef st))
          then Driver.mkState (Driver.boardPreset st) (Driver.snake st)
                 (Driver.food st) (Driver.gameOver st) (Driver.score st)
                 (Driver.speedLabel st) d (Driver.running st)
                 (Driver.msPerTickRef st)
          else st
      | None => st
      end
  end.

(** [handleDPadPress]. *)
Definition handleDPadPress (direction : Direction) (st : Driver.GameState)
    : Driver.GameState :=
  if negb (Driver.Direction_eqb (Driver.OPPOSITES direction)
             (Driver.directionRef st))
  then Driver.mkState (Driver.boardPreset st) (Driver.snake st)
         (Driver.food st) (Driver.gameOver st) (Driver.score st)
         (Driver.speedLabel st) direction (Driver.running st)
         (Driver.msPerTickRef st)
  else st.

End Touch.

(** ** SnakeGame.tsx: the animation frame *)

Module Frame.

(** The updater passed to [setSnake] (lines 157-171), as a function of the
    [food] that the closure of the loop effect holds. The effect runs again
    when [food] changes, but only after a render: every updater queued by one
    call of [loop] reads the food of the render before the frame, also after
    one of them has eaten. [Driver.tick] is the updater for
    [food = Driver.food st], the first tick after a render. The direction is
    read from [directionRef] and the board from the state when the updater
    runs. *)
Definition updater (food : Point) (st : Driver.GameState) (rng : nat → Q)
    (fuel n : nat) : outcome Driver.GameState * nat :=
  match stepSnake (Driver.snake st) (Driver.directionRef st) food
          (Driver.gridSize st) with
  | None => (Throws "TypeError", n)
  | Some r =>
      if collision r then
        (Returns (Driver.mkState (Driver.boardPreset st) (Driver.snake st)
                    (Driver.food st) true (Driver.score st)
                    (Driver.speedLabel st) (Driver.directionRef st)
                    (Driver.running st) (Driver.msPerTickRef st)), n)
      else if ate r then
        match randPointExcluding (list_to_set (keyOf <$> Game.snake r))
                (Driver.gridSize st) rng fuel n with
        | (Returns p, n') =>
            (Returns (Driver.mkState (Driver.boardPreset st) (Game.snake r) p
                        (Driver.gameOver st) (Driver.score st + 1)
                        (Driver.speedLabel st) (Driver.directionRef st)
                        (Driver.running st)
                        (Qmax 40 (Driver.msPerTickRef st * 0.95))), n')
        | (Throws msg, n') => (Throws msg, n')
        | (Spins, n') => (Spins, n')
        end
      else
        (Returns (Driver.mkState (Driver.boardPreset st) (Game.snake r)
                    (Driver.food st) (Driver.gameOver st) (Driver.score st)
                    (Driver.speedLabel st) (Driver.directionRef st)
                    (Driver.running st) (Driver.msPerTickRef st)), n)
  end.

(** The [k] updaters that one call of [loop] queues, run in order, each on
    the state that the one before it left, with no event between them. *)
Fixpoint updates (k : nat) (food : Point) (st : Driver.GameState)
    (rng : nat → Q) (fuel n : nat) : outcome Driver.GameState * nat :=
  match k with
  | O => (Returns st, n)
  | S k' =>
      match updater food st rng fuel n with
      | (Returns st', n') => updates k' food st' rng fuel n'
      | (Throws msg, n') => (Throws msg, n')
      | (Spins, n') => (Spins, n')
      end
  end.

(** One animation frame: a call of [loop] whose [while] runs [k] times ([k]
    is decided by the time stamps). The effect that schedules [loop] returns
    at once when [gameOver] is set (line 140), and [loop] performs no tick
    while the game is paused (line 144). *)
Definition loop (k : nat) (food : Point) (st : Driver.GameState)
    (rng : nat → Q) (fuel n : nat) : outcome Driver.GameState * nat :=
  if Driver.gameOver st then (Returns st, n)
  else if negb (Driver.running st) then (Returns st, n)
  else updates k food st rng fuel n.

(** Play, one updater at a time: an updater may hold any food in its
    closure and runs whatever the flags are, so that every schedule of the
    updaters of the frames is a sequence of these steps. *)
Inductive play : Driver.GameState → Driver.GameState → Prop :=
  | play_update st st' food rng fuel n n' :
      updater food st rng fuel n = (Returns st', n') →
      play st st'
  | play_key st nextDir :
      play st (Driver.handleKeyDown nextDir st)
  | play_pause st :
      play st (Driver.togglePause st).


(** A course of play: for each frame, the key pressed before it, if any;
    each frame holds one tick and starts after a render, with the current
    food in its closure. *)
Fixpoint follow (keys : list (option Direction)) (st : Driver.GameState)
    (rng : nat → Q) (fuel n : nat) : outcome Driver.GameState * nat :=
  match keys with
  | [] => (Returns st, n)
  | key :: keys' =>
      let st1 :=
        match key with
        | Some d => Driver.handleKeyDown d st
        | None => st
        end in
      match loop 1 (Driver.food st1) st1 rng fuel n with
      | (Returns st2, n') => follow keys' st2 rng fuel n'
      | (Throws msg, n') => (Throws msg, n')
      | (Spins, n') => (Spins, n')
      end
  end.

End Frame.


(** The keys of a course along [serpentine 10] from the initial snake: 40
    frames, the head runs rows 0 to 3 to their ends and stops at (4,2). *)
Definition serpentineKeys : list (option Direction) :=
  replicate 7 None ++ [Some DOWN; Some LEFT] ++
  replicate 8 None ++ [Some DOWN; Some RIGHT] ++
  replicate 8 None ++ [Some DOWN; Some LEFT] ++
  replicate 8 None ++ [Some DOWN; Some RIGHT; None].

(** A source that draws the cells of [cells] in order, two numbers per
    cell. *)
Definition sourceAlong (cells : list Point) (gridSize : Z) : nat → Q :=
  λ k, let p := cells !!! Nat.div2 k in
       midpointOf (if Nat.even k then p.1 else p.2) gridSize.

(** A game at the preset [slow], the food in front of the head. *)
Definition slowStart : Driver.GameState :=
  Driver.mkState Driver.classic Driver.INITIAL_SNAKE (0, 3) false 0
    Driver.slow RIGHT true 300.

(** ** Properties of [keyOf] *)

Section Keys.

Lemma pretty_N_char_not_comma (x : N) : pretty_N_char x ≠ ","%char.
Proof. unfold pretty_N_char. by repeat case_match. Qed.

Lemma pretty_N_go_commaFree (x : N) (s : string) :
  commaFree s → commaFree (pretty_N_go x s).
Proof.
  revert s. induction (N.lt_wf_0 x) as [x _ IH]; intros s Hs.
  destruct (decide (x = 0)%N) as [->|Hx].
  - by rewrite pretty_N_go_0.
  - rewrite pretty_N_go_step by lia.
    apply IH; [apply N.div_lt; lia|].
    split; [apply pretty_N_char_not_comma | done].
Qed.

Lemma pretty_N_commaFree (x : N) : commaFree (pretty x).
Proof.
  unfold pretty, pretty_N. case_decide.
  - by compute.
  - by apply pretty_N_go_commaFree.
Qed.

Lemma pretty_Z_commaFree (z : Z) : commaFree (pretty z).
Proof.
  destruct z as [|p|p]; unfold pretty, pretty_Z.
  - by compute.
  - apply pretty_N_commaFree.
  - split; [done | apply pretty_N_commaFree].
Qed.

(** Two strings cut at their first comma agree on both sides. *)
Lemma split_at_comma (s1 s2 t1 t2 : string) :
  commaFree s1 → commaFree s2 →
  s1 +:+ "," +:+ t1 = s2 +:+ "," +:+ t2 → s1 = s2 ∧ t1 = t2.
Proof.
  revert s2. induction s1 as [|c s1 IH]; intros [|d s2] H1 H2 Heq;
    simpl in *.
  - by injection Heq.
  - destruct H2 as [Hd _]. injection Heq as Hc _. by subst.
  - destruct H1 as [Hc _]. injection Heq as Hd _. by subst.
  - destruct H1 as [_ H1], H2 as [_ H2]. injection Heq as -> Heq.
    destruct (IH s2 H1 H2 Heq) as [-> ->]. done.
Qed.

Lemma keyOf_inj (p q : Point) : keyOf p = keyOf q → p = q.
Proof.
  destruct p as [r c], q as [r' c']. unfold keyOf; simpl. intros Heq.
  apply split_at_comma in Heq as [Hr Hc]; auto using pretty_Z_commaFree.
  apply (inj pretty) in Hr. apply (inj pretty) in Hc. by subst.
Qed.

Lemma elem_of_keys (p : Point) (l : list Point) :
  keyOf p ∈ (list_to_set (keyOf <$> l) : gset string) ↔ p ∈ l.
Proof.
  rewrite elem_of_list_to_set, list_elem_of_fmap. split.
  - intros (q & Heq & Hq). apply keyOf_inj in Heq. by subst.
  - intros Hp. by exists p.
Qed.

End Keys.


(** ** Properties of [stepSnake] *)

Section Step.

Implicit Types (head food p : Point) (rest prev : list Point)
  (dir : Direction) (gridSize : Z).

(** [willEat], on points. *)
Lemma willEat_decide (p food : Point) :
  (p.1 =? food.1) && (p.2 =? food.2) = bool_decide (p = food).
Proof.
  destruct p as [r c], food as [fr fc]; simpl.
  destruct (Z.eqb_spec r fr) as [->|Hr], (Z.eqb_spec c fc) as [->|Hc]; simpl;
    symmetry; first [by apply bool_decide_eq_true_2
                    | apply bool_decide_eq_false_2; congruence].
Qed.

(** The body of [stepSnake] with the string keys replaced by the points
    they stand for. *)
Lemma stepSnake_cons head rest dir food gridSize :
  let prev := head :: rest in
  let nh := newHeadOf head dir gridSize in
  stepSnake prev dir food gridSize =
  if bool_decide (nh ∈ prev)
     && negb (bool_decide (nh = List.last prev head)
              && negb (bool_decide (nh = food)))
  then Some (mkStep prev false true)
  else Some (mkStep (if bool_decide (nh = food) then nh :: prev
                     else removelast (nh :: prev))
               (bool_decide (nh = food)) false).
Proof.
  intros prev nh. unfold stepSnake, prev. cbv zeta. fold prev. fold nh.
  rewrite willEat_decide.
  rewrite (bool_decide_ext _ _ (elem_of_keys nh prev)).
  rewrite (bool_decide_ext (keyOf nh = keyOf (List.last prev head))
             (nh = List.last prev head))
    by (split; [apply keyOf_inj | by intros ->]).
  by destruct (bool_decide (nh = food)).
Qed.

Lemma stepSnake_returns head rest dir food gridSize :
  ∃ r, stepSnake (head :: rest) dir food gridSize = Some r.
Proof.
  rewrite stepSnake_cons. cbv zeta. case_match; eauto.
Qed.

Lemma length_removelast_cons (p : Point) prev :
  length (removelast (p :: prev)) = length prev.
Proof.
  rewrite removelast_firstn_len, length_take. simpl. lia.
Qed.

(** Case analysis on the two comparisons of [wrapCoord]. *)
Ltac wrap_cases :=
  unfold wrapCoord;
  repeat match goal with
    | |- context [?a <? ?b] => destruct (Z.ltb_spec a b)
    | |- context [?a >=? ?b] => destruct (Z.geb_spec a b)
    end.

Lemma wrapCoord_inGrid (x gridSize : Z) :
  0 < gridSize → -1 ≤ x ≤ gridSize → 0 ≤ wrapCoord x gridSize < gridSize.
Proof. intros Hg Hx. wrap_cases; lia. Qed.

Lemma wrapCoord_below (gridSize : Z) : wrapCoord (-1) gridSize = gridSize - 1.
Proof. done. Qed.

Lemma wrapCoord_above (gridSize : Z) :
  0 ≤ gridSize → wrapCoord gridSize gridSize = 0.
Proof. intros Hg. wrap_cases; lia. Qed.

Lemma newHeadOf_onExitEdge head dir gridSize :
  inGrid gridSize head → onExitEdge gridSize head dir →
  newHeadOf head dir gridSize = oppositeEdge gridSize head dir.
Proof.
  destruct head as [r c]. intros [Hr Hc] Hedge. unfold newHeadOf.
  destruct dir; simpl in *; subst; wrap_cases; f_equal; lia.
Qed.

Lemma newHeadOf_inGrid head dir gridSize :
  inGrid gridSize head → inGrid gridSize (newHeadOf head dir gridSize).
Proof.
  destruct head as [r c]. unfold inGrid, newHeadOf. simpl. intros [Hr Hc].
  destruct dir; simpl; split; apply wrapCoord_inGrid; lia.
Qed.

Lemma Forall_removelast {A} (P : A → Prop) (l : list A) :
  Forall P l → Forall P (removelast l).
Proof.
  rewrite removelast_firstn_len. apply Forall_take.
Qed.

(** In a snake without a repeated cell, a cell held by a segment before the
    last one is not the tail's cell. *)
Lemma nodup_before_last_ne_tail head rest p (i : nat) :
  NoDup (head :: rest) →
  (S i < length (head :: rest))%nat → (head :: rest) !! i = Some p →
  p ≠ List.last (head :: rest) head.
Proof.
  intros Hnd Hi Hp Heq.
  assert (Hne : head :: rest ≠ []) by done.
  pose proof (app_removelast_last head Hne) as Hsplit.
  set (front := removelast (head :: rest)) in *.
  set (tl := List.last (head :: rest) head) in *.
  assert (Hlen : length front = length rest).
  { unfold front. apply length_removelast_cons. }
  rewrite Hsplit in Hnd, Hp.
  apply NoDup_app in Hnd as (_ & Hdisj & _).
  rewrite lookup_app_l in Hp by (simpl in Hi; lia).
  apply (Hdisj p).
  - eapply list_elem_of_lookup_2, Hp.
  - rewrite Heq. apply list_elem_of_here.
Qed.

(** The collision branch: the candidate is a cell of the snake, and it is
    not the tail's cell or it is the food. *)
Lemma stepSnake_hitSelf head rest dir food gridSize :
  let prev := head :: rest in
  let nh := newHeadOf head dir gridSize in
  nh ∈ prev →
  nh ≠ List.last prev head ∨ nh = food →
  stepSnake prev dir food gridSize = Some (mkStep prev false true).
Proof.
  intros prev nh Hocc Hcase. unfold prev. rewrite stepSnake_cons. cbv zeta.
  fold prev. fold nh.
  rewrite (bool_decide_eq_true_2 _ Hocc).
  destruct Hcase as [Hne|Heat].
  - by rewrite (bool_decide_eq_false_2 _ Hne).
  - rewrite (bool_decide_eq_true_2 _ Heat). simpl. by rewrite andb_false_r.
Qed.

(** For a snake without a repeated cell, a segment other than the tail on
    the candidate cell is a collision. *)
Lemma self_collision_on_nodup head rest dir food gridSize (i : nat) :
  let prev := head :: rest in
  let nh := newHeadOf head dir gridSize in
  NoDup prev → (S i < length prev)%nat → prev !! i = Some nh →
  stepSnake prev dir food gridSize = Some (mkStep prev false true).
Proof.
  intros prev nh Hnd Hi Hlook.
  apply stepSnake_hitSelf.
  - eapply list_elem_of_lookup_2, Hlook.
  - left. by eapply nodup_before_last_ne_tail.
Qed.

(** A snake without a repeated cell is stepped to one without a repeated
    cell: the head only enters a free cell, or the cell that the tail
    leaves in the same step. *)
Lemma stepSnake_preserves_NoDup head rest dir food gridSize r :
  NoDup (head :: rest) →
  stepSnake (head :: rest) dir food gridSize = Some r →
  NoDup (snake r).
Proof.
  intros Hnd. rewrite stepSnake_cons. cbv zeta.
  set (prev := head :: rest) in *. set (nh := newHeadOf head dir gridSize).
  assert (Hsplit : prev = removelast prev ++ [List.last prev head])
    by (by apply app_removelast_last).
  destruct (bool_decide (nh ∈ prev)) eqn:Hocc; cbn [andb].
  - destruct (bool_decide (nh = List.last prev head)) eqn:Htail; cbn [andb negb].
    + destruct (bool_decide (nh = food)) eqn:Heat; cbn [negb];
        intros [= <-]; cbn [snake]; [done|].
      change (NoDup (nh :: removelast prev)).
      apply bool_decide_eq_true_1 in Htail.
      rewrite Hsplit in Hnd. apply NoDup_app in Hnd as (Hfront & Hdisj & _).
      constructor; [|done].
      intros Hin. apply (Hdisj _ Hin). rewrite Htail. apply list_elem_of_here.
    + by intros [= <-].
  - apply bool_decide_eq_false_1 in Hocc. intros [= <-]. cbn [snake].
    destruct (bool_decide (nh = food)).
    + by constructor.
    + change (NoDup (nh :: removelast prev)). rewrite Hsplit in Hnd, Hocc.
      apply NoDup_app in Hnd as (Hfront & _ & _).
      constructor; [|done]. intros Hin. apply Hocc, elem_of_app. by left.
Qed.

End Step.


(** ** The tick function: statements *)

Section StepClaims.

Implicit Types (head food p q : Point) (rest prev : list Point)
  (dir : Direction) (gridSize : Z).

(** C10: [keyOf] tells points apart: two points have the same key exactly
    when they are the same point (for all integer coordinates, the
    non-negative ones among them), so the key of a point is in the set of
    keys of a list of cells exactly when the point is in the list. *)
Theorem keyOf_faithful p q (cells : list Point) :
  (keyOf p = keyOf q ↔ p = q) ∧
  (keyOf p ∈ (list_to_set (keyOf <$> cells) : gset string) ↔ p ∈ cells).
Proof.
  split; [|apply elem_of_keys].
  split; [apply keyOf_inj | by intros ->].
Qed.

(** C1: on a non-empty snake [stepSnake] returns, and when it reports no
    collision the returned snake is the wrapped candidate head in front of
    the input, without its last element exactly when nothing was eaten:
    same length when [ate] is false, one more when [ate] is true. *)
Theorem stepSnake_moves_or_grows head rest dir food gridSize :
  ∃ r, stepSnake (head :: rest) dir food gridSize = Some r ∧
    (collision r = false →
     let nh := newHeadOf head dir gridSize in
     snake r = (if ate r then nh :: head :: rest
                else removelast (nh :: head :: rest)) ∧
     length (snake r) = (if ate r then S (length (head :: rest))
                         else length (head :: rest))).
Proof.
  rewrite stepSnake_cons. cbv zeta.
  case_match; eexists; (split; [reflexivity|]); cbn [collision snake ate];
    [discriminate|].
  intros _. split; [done|].
  case_match; [done | apply length_removelast_cons].
Qed.

(** C2: for a snake of at least two segments whose wrapped candidate head
    is the tail's cell and no other segment's, [stepSnake] reports no
    collision when the candidate is not the food, and a collision when it
    is. *)
Theorem tail_cell_vacates_unless_eating head rest dir food gridSize :
  let prev := head :: rest in
  let nh := newHeadOf head dir gridSize in
  (2 ≤ length prev)%nat →
  nh = List.last prev head →
  (∀ i : nat, (S i < length prev)%nat → prev !! i ≠ Some nh) →
  ∃ r, stepSnake prev dir food gridSize = Some r ∧
    (nh ≠ food → collision r = false) ∧ (nh = food → collision r = true).
Proof.
  intros prev nh _ Htail _. unfold prev. rewrite stepSnake_cons. cbv zeta.
  fold prev. fold nh.
  assert (Hocc : nh ∈ prev).
  { rewrite Htail. unfold prev.
    rewrite (app_removelast_last (l := head :: rest) head) at 2 by done.
    apply elem_of_app. right. apply list_elem_of_here. }
  rewrite (bool_decide_eq_true_2 _ Hocc), (bool_decide_eq_true_2 _ Htail).
  destruct (decide (nh = food)) as [Heat|Heat].
  - rewrite (bool_decide_eq_true_2 _ Heat). simpl. eexists. split; [done|].
    by split.
  - rewrite (bool_decide_eq_false_2 _ Heat). simpl. eexists. split; [done|].
    by split.
Qed.

(** C3: for a snake, which has no repeated cell, if the wrapped candidate
    head is the cell of a segment other than the tail, or is the tail's
    cell and the food, [stepSnake] returns the input sequence itself with
    [ate = false] and [collision = true]. *)
Theorem self_collision_returns_input head rest dir food gridSize :
  let prev := head :: rest in
  let nh := newHeadOf head dir gridSize in
  NoDup prev →
  (∃ i : nat, (S i < length prev)%nat ∧ prev !! i = Some nh)
  ∨ (nh = List.last prev head ∧ nh = food) →
  stepSnake prev dir food gridSize = Some (mkStep prev false true).
Proof.
  intros prev nh Hnd [(i & Hi & Hlook)|[Htail Heat]].
  - by apply (self_collision_on_nodup head rest dir food gridSize i).
  - assert (Hocc : nh ∈ prev).
    { rewrite Htail. unfold prev.
      rewrite (app_removelast_last (l := head :: rest) head) at 2 by done.
      apply elem_of_app. right. apply list_elem_of_here. }
    apply stepSnake_hitSelf; [exact Hocc | by right].
Qed.

(** C4: with the head on the edge that the direction points off, the new
    head is the cell on the opposite edge of the same axis (-1 becomes
    [gridSize - 1], [gridSize] becomes 0); [stepSnake] returns, reports a
    collision only if that cell is a cell of the snake, and otherwise moves
    the head there. *)
Theorem wrap_to_opposite_edge head rest dir food gridSize :
  inGrid gridSize head →
  onExitEdge gridSize head dir →
  let nh := newHeadOf head dir gridSize in
  wrapCoord (-1) gridSize = gridSize - 1 ∧
  wrapCoord gridSize gridSize = 0 ∧
  nh = oppositeEdge gridSize head dir ∧
  ∃ r, stepSnake (head :: rest) dir food gridSize = Some r ∧
    (collision r = true → nh ∈ head :: rest) ∧
    (collision r = false → snake r !! 0%nat = Some nh).
Proof.
  intros Hin Hedge nh.
  split; [apply wrapCoord_below|].
  split; [apply wrapCoord_above; destruct Hin; lia|].
  split; [by apply newHeadOf_onExitEdge|].
  rewrite stepSnake_cons. cbv zeta. fold nh.
  destruct (bool_decide (nh ∈ head :: rest)) eqn:Hocc; cbn [andb].
  - apply bool_decide_eq_true_1 in Hocc.
    case_match; eexists; (split; [reflexivity|]); cbn [collision snake];
      split; try done.
    intros _. by destruct (bool_decide (nh = food)).
  - eexists. split; [reflexivity|]. cbn [collision snake]. split; [done|].
    intros _. by destruct (bool_decide (nh = food)).
Qed.

(** C9: on a grid of side at least 2, a snake whose cells are all in the
    grid is stepped to a snake whose cells are all in the grid, whether or
    not the step reports a collision. *)
Theorem stepSnake_preserves_inGrid head rest dir food gridSize :
  2 ≤ gridSize →
  Forall (inGrid gridSize) (head :: rest) →
  ∃ r, stepSnake (head :: rest) dir food gridSize = Some r ∧
       Forall (inGrid gridSize) (snake r).
Proof.
  intros _ Hall. rewrite stepSnake_cons. cbv zeta.
  assert (Hnh : inGrid gridSize (newHeadOf head dir gridSize)).
  { apply newHeadOf_inGrid. by inversion Hall. }
  case_match; eexists; (split; [reflexivity|]); cbn [snake]; [done|].
  case_match; [|apply Forall_removelast]; by constructor.
Qed.

End StepClaims.


(** ** The tick function on the cases of game.test.ts *)

(** 'eats food and grows': the meal makes the snake one longer. *)
Lemma stepSnake_moves_or_grows_witness :
  ∃ r, stepSnake [(0, 1); (0, 0)] RIGHT (0, 2) 10 = Some r ∧
       collision r = false ∧ ate r = true ∧
       snake r = [(0, 2); (0, 1); (0, 0)] ∧ length (snake r) = 3%nat.
Proof.
  destruct (stepSnake_moves_or_grows (0, 1) [(0, 0)] RIGHT (0, 2) 10)
    as (r & Hr & Hshape).
  exists r. split; [exact Hr|].
  vm_compute in Hr. injection Hr as <-.
  destruct (Hshape eq_refl) as [Hsnake Hlen].
  split; [reflexivity|]. split; [reflexivity|].
  split; [exact Hsnake | exact Hlen].
Defined.

(** A loop of four segments on which the head turns into the tail's cell. *)
Lemma tail_cell_vacates_unless_eating_witness :
  (2 ≤ length [(0, 0); (0, 1); (1, 1); (1, 0)])%nat ∧
  newHeadOf (0, 0) DOWN 10 = List.last [(0, 0); (0, 1); (1, 1); (1, 0)] (0, 0) ∧
  (∀ i : nat, (S i < length [(0, 0); (0, 1); (1, 1); (1, 0)])%nat →
     [(0, 0); (0, 1); (1, 1); (1, 0)] !! i ≠ Some (newHeadOf (0, 0) DOWN 10)) ∧
  ∃ r, stepSnake [(0, 0); (0, 1); (1, 1); (1, 0)] DOWN (9, 9) 10 = Some r ∧
       collision r = false.
Proof.
  assert (Hlen : (2 ≤ length [(0, 0); (0, 1); (1, 1); (1, 0)])%nat)
    by (simpl; lia).
  assert (Htail : newHeadOf (0, 0) DOWN 10
                  = List.last [(0, 0); (0, 1); (1, 1); (1, 0)] (0, 0))
    by reflexivity.
  assert (Hothers : ∀ i : nat,
            (S i < length [(0, 0); (0, 1); (1, 1); (1, 0)])%nat →
            [(0, 0); (0, 1); (1, 1); (1, 0)] !! i
            ≠ Some (newHeadOf (0, 0) DOWN 10)).
  { intros [|[|[|i]]] Hi; simpl in *; first [discriminate | lia]. }
  split; [exact Hlen|]. split; [exact Htail|]. split; [exact Hothers|].
  destruct (tail_cell_vacates_unless_eating (0, 0) [(0, 1); (1, 1); (1, 0)]
              DOWN (9, 9) 10 Hlen Htail Hothers) as (r & Hr & Hfree & _).
  exists r. split; [exact Hr|]. apply Hfree. discriminate.
Defined.

(** 'detects self collision': the head runs into the second segment. *)
Lemma self_collision_returns_input_witness :
  NoDup [(0, 2); (1, 2); (1, 1); (0, 1)] ∧
  (2 < length [(0, 2); (1, 2); (1, 1); (0, 1)])%nat ∧
  [(0, 2); (1, 2); (1, 1); (0, 1)] !! 1%nat = Some (newHeadOf (0, 2) DOWN 10) ∧
  stepSnake [(0, 2); (1, 2); (1, 1); (0, 1)] DOWN (9, 9) 10
  = Some (mkStep [(0, 2); (1, 2); (1, 1); (0, 1)] false true).
Proof.
  assert (Hnd : NoDup [(0, 2); (1, 2); (1, 1); (0, 1)])
    by (by apply (bool_decide_unpack _)).
  assert (Hi : (2 < length [(0, 2); (1, 2); (1, 1); (0, 1)])%nat)
    by (simpl; lia).
  assert (Hlook : [(0, 2); (1, 2); (1, 1); (0, 1)] !! 1%nat
                  = Some (newHeadOf (0, 2) DOWN 10)) by reflexivity.
  split; [exact Hnd|]. split; [exact Hi|]. split; [exact Hlook|].
  exact (self_collision_returns_input (0, 2) [(1, 2); (1, 1); (0, 1)]
           DOWN (9, 9) 10 Hnd
           (or_introl (ex_intro _ 1%nat (conj Hi Hlook)))).
Defined.

(** The hypothesis on repeated cells is used: in a sequence whose second
    segment shares the tail's cell (0,0), a sequence that no step produces
    from a snake, the head enters that cell with no collision reported. *)
Lemma repeated_cell_hides_collision :
  (∃ i : nat, (S i < length [(0, 1); (0, 0); (0, 0)])%nat ∧
     [(0, 1); (0, 0); (0, 0)] !! i = Some (newHeadOf (0, 1) LEFT 10)) ∧
  ¬ NoDup [(0, 1); (0, 0); (0, 0)] ∧
  stepSnake [(0, 1); (0, 0); (0, 0)] LEFT (9, 9) 10
  = Some (mkStep [(0, 0); (0, 1); (0, 0)] false false).
Proof.
  split; [|split].
  - exists 1%nat. split; [simpl; lia | reflexivity].
  - rewrite !NoDup_cons. intros (_ & Hdup & _). apply Hdup, list_elem_of_here.
  - vm_compute. reflexivity.
Qed.

(** 'wraps around borders': leaving by the right edge. *)
Lemma wrap_to_opposite_edge_witness :
  inGrid 10 (0, 9) ∧ onExitEdge 10 (0, 9) RIGHT ∧
  newHeadOf (0, 9) RIGHT 10 = (0, 0) ∧
  ∃ r, stepSnake [(0, 9); (0, 8)] RIGHT (5, 5) 10 = Some r ∧
       collision r = false ∧ snake r !! 0%nat = Some (0, 0).
Proof.
  assert (Hin : inGrid 10 (0, 9)) by (unfold inGrid; simpl; lia).
  assert (Hedge : onExitEdge 10 (0, 9) RIGHT) by reflexivity.
  split; [exact Hin|]. split; [exact Hedge|].
  destruct (wrap_to_opposite_edge (0, 9) [(0, 8)] RIGHT (5, 5) 10 Hin Hedge)
    as (_ & _ & Hnh & r & Hr & _ & Hmove).
  split; [exact Hnh|].
  exists r. split; [exact Hr|].
  vm_compute in Hr. injection Hr as <-.
  split; [reflexivity | exact (Hmove eq_refl)].
Defined.

(** 'wraps around left border': the stepped snake is in the grid. *)
Lemma stepSnake_preserves_inGrid_witness :
  2 ≤ 10 ∧ Forall (inGrid 10) [(5, 0); (5, 1)] ∧
  ∃ r, stepSnake [(5, 0); (5, 1)] LEFT (5, 5) 10 = Some r ∧
       Forall (inGrid 10) (snake r).
Proof.
  assert (Hg : 2 ≤ 10) by lia.
  assert (Hall : Forall (inGrid 10) [(5, 0); (5, 1)]).
  { repeat constructor; simpl; lia. }
  split; [exact Hg|]. split; [exact Hall|].
  exact (stepSnake_preserves_inGrid (5, 0) [(5, 1)] LEFT (5, 5) 10 Hg Hall).
Defined.


(** ** Food placement *)

Section Sampling.

Implicit Types (exclude : gset string) (gridSize : Z) (rng : nat → Q)
  (p free : Point) (fuel n : nat).

(** A number of [[0, 1)] scaled by the side of the grid and floored is a
    coordinate of the grid. *)
Lemma randCoord_range rng gridSize n :
  unitSource rng → 0 < gridSize → 0 ≤ randCoord rng gridSize n < gridSize.
Proof.
  intros Hrng Hg. destruct (Hrng n) as [Hlo Hhi]. unfold randCoord.
  assert (Hg' : (0 < inject_Z gridSize)%Q) by (by rewrite <- (Zlt_Qlt 0)).
  split.
  - change 0 with (Qfloor 0). apply Qfloor_resp_le.
    apply Qmult_le_0_compat; [done | by apply Qlt_le_weak].
  - rewrite Zlt_Qlt. eapply Qle_lt_trans; [apply Qfloor_le|].
    rewrite <- (Qmult_1_l (inject_Z gridSize)) at 2.
    by apply Qmult_lt_compat_r.
Qed.

Lemma drawAt_inGrid rng gridSize n :
  unitSource rng → 0 < gridSize → inGrid gridSize (drawAt rng gridSize n).
Proof.
  intros Hrng Hg. split; simpl; by apply randCoord_range.
Qed.

(** One turn of the loop. *)
Lemma rejectionLoop_S exclude gridSize rng fuel n :
  rejectionLoop exclude gridSize rng (S fuel) n =
  if bool_decide (keyOf (drawAt rng gridSize n) ∈ exclude)
  then rejectionLoop exclude gridSize rng fuel (S (S n))
  else (Returns (drawAt rng gridSize n), S (S n)).
Proof. simpl. fold (drawAt rng gridSize n). by case_bool_decide. Qed.

(** The loop never throws, and a point it returns is not excluded. *)
Lemma rejectionLoop_not_throws exclude gridSize rng fuel n msg n' :
  rejectionLoop exclude gridSize rng fuel n ≠ (Throws msg, n').
Proof.
  revert n. induction fuel as [|fuel IH]; intros n; [done|].
  rewrite rejectionLoop_S. case_bool_decide; [apply IH | done].
Qed.

Lemma rejectionLoop_avoids exclude gridSize rng fuel n p n' :
  rejectionLoop exclude gridSize rng fuel n = (Returns p, n') →
  keyOf p ∉ exclude.
Proof.
  revert n. induction fuel as [|fuel IH]; intros n; [done|].
  rewrite rejectionLoop_S. case_bool_decide as Hin; [apply IH|].
  intros [= <- _]. exact Hin.
Qed.

(** The loop returns the first draw that is not excluded. *)
Lemma rejectionLoop_first_free exclude gridSize rng fuel n (i : nat) :
  (∀ j : nat, (j < i)%nat → keyOf (drawAt rng gridSize (n + 2 * j)) ∈ exclude) →
  keyOf (drawAt rng gridSize (n + 2 * i)) ∉ exclude →
  (i < fuel)%nat →
  rejectionLoop exclude gridSize rng fuel n
  = (Returns (drawAt rng gridSize (n + 2 * i)), (n + 2 * S i)%nat).
Proof.
  revert n fuel. induction i as [|i IH]; intros n fuel Hbefore Hfree Hfuel;
    (destruct fuel as [|fuel]; [lia|]); rewrite rejectionLoop_S.
  - replace (n + 2 * 0)%nat with n in * by lia.
    rewrite bool_decide_eq_false_2 by done. do 2 f_equal. lia.
  - rewrite bool_decide_eq_true_2.
    2:{ specialize (Hbefore 0%nat). replace (n + 2 * 0)%nat with n in Hbefore by lia.
        apply Hbefore. lia. }
    replace (n + 2 * S i)%nat with (S (S n) + 2 * i)%nat in * by lia.
    replace (n + 2 * S (S i))%nat with (S (S n) + 2 * S i)%nat by lia.
    apply IH; [|done|lia].
    intros j Hj. specialize (Hbefore (S j)).
    replace (n + 2 * S j)%nat with (S (S n) + 2 * j)%nat in Hbefore by lia.
    apply Hbefore. lia.
Qed.

(** The loop is still running after [fuel] excluded draws. *)
Lemma rejectionLoop_spins exclude gridSize rng fuel n :
  (∀ j : nat, (j < fuel)%nat → keyOf (drawAt rng gridSize (n + 2 * j)) ∈ exclude) →
  rejectionLoop exclude gridSize rng fuel n = (Spins, (n + 2 * fuel)%nat).
Proof.
  revert n. induction fuel as [|fuel IH]; intros n Hall.
  - simpl. f_equal. lia.
  - rewrite rejectionLoop_S, bool_decide_eq_true_2.
    2:{ specialize (Hall 0%nat). replace (n + 2 * 0)%nat with n in Hall by lia.
        apply Hall. lia. }
    rewrite IH; [f_equal; lia|].
    intros j Hj. specialize (Hall (S j)).
    replace (n + 2 * S j)%nat with (S (S n) + 2 * j)%nat in Hall by lia.
    apply Hall. lia.
Qed.

(** A point returned by [randPointExcluding] is not excluded. *)
Lemma randPointExcluding_avoids exclude gridSize rng fuel n p n' :
  randPointExcluding exclude gridSize rng fuel n = (Returns p, n') →
  keyOf p ∉ exclude.
Proof.
  unfold randPointExcluding. cbv zeta. case_match; [done|].
  apply rejectionLoop_avoids.
Qed.

(** The cells of the grid, counted. *)
Lemma elem_of_gridCells gridSize p : p ∈ gridCells gridSize ↔ inGrid gridSize p.
Proof.
  unfold gridCells, inGrid. rewrite list_elem_of_bind. split.
  - intros (r & Hp & Hr). apply list_elem_of_fmap in Hp as (c & -> & Hc).
    apply elem_of_seqZ in Hr, Hc. simpl. lia.
  - intros [Hr Hc]. exists p.1. split; [|apply elem_of_seqZ; lia].
    apply list_elem_of_fmap. exists p.2. split; [by destruct p|].
    apply elem_of_seqZ. lia.
Qed.

Lemma NoDup_gridCells gridSize : NoDup (gridCells gridSize).
Proof.
  unfold gridCells. apply NoDup_bind; [| |apply NoDup_seqZ].
  - intros r1 r2 p _ _ H1 H2.
    apply list_elem_of_fmap in H1 as (c1 & -> & _).
    apply list_elem_of_fmap in H2 as (c2 & [= -> _] & _). done.
  - intros r _. apply NoDup_fmap; [|apply NoDup_seqZ]. by intros c1 c2 [= ->].
Qed.

Lemma length_row_bind (rows cols : list Z) :
  length (r ← rows; (λ c, (r, c)) <$> cols) = (length rows * length cols)%nat.
Proof.
  induction rows as [|r rows IH]; [done|].
  cbn [mbind list_bind]. rewrite length_app, length_fmap.
  simpl. f_equal. exact IH.
Qed.

Lemma length_gridCells gridSize :
  length (gridCells gridSize) = (Z.to_nat gridSize * Z.to_nat gridSize)%nat.
Proof. unfold gridCells. by rewrite length_row_bind, length_seqZ. Qed.

Lemma elem_of_allCellsBut gridSize free (k : string) :
  k ∈ allCellsBut gridSize free
  ↔ ∃ p, inGrid gridSize p ∧ p ≠ free ∧ k = keyOf p.
Proof.
  unfold allCellsBut. rewrite elem_of_list_to_set, list_elem_of_fmap.
  split; intros (p & H1 & H2).
  - apply list_elem_of_filter in H2 as [Hne Hin].
    apply elem_of_gridCells in Hin. by exists p.
  - destruct H2 as [Hne ->]. exists p. split; [done|].
    apply list_elem_of_filter. split; [done | by apply elem_of_gridCells].
Qed.

Lemma size_allCellsBut gridSize free :
  inGrid gridSize free →
  size (allCellsBut gridSize free)
  = (Z.to_nat gridSize * Z.to_nat gridSize - 1)%nat.
Proof.
  intros Hfree.
  assert (Heq : allCellsBut gridSize free
                = list_to_set (keyOf <$> gridCells gridSize) ∖ {[keyOf free]}).
  { apply set_eq. intros k.
    rewrite elem_of_allCellsBut, elem_of_difference, elem_of_singleton,
      elem_of_list_to_set, list_elem_of_fmap.
    split.
    - intros (p & Hin & Hne & ->). split.
      + exists p. split; [done | by apply elem_of_gridCells].
      + intros Hk. by apply keyOf_inj in Hk.
    - intros [(p & -> & Hin) Hne]. exists p.
      split; [by apply elem_of_gridCells|]. split; [|done].
      by intros ->. }
  rewrite Heq, size_difference.
  - rewrite size_singleton, size_list_to_set, length_fmap, length_gridCells;
      [done|].
    apply NoDup_fmap; [|apply NoDup_gridCells].
    intros p q. apply keyOf_inj.
  - apply singleton_subseteq_l, elem_of_list_to_set, list_elem_of_fmap.
    exists free. split; [done | by apply elem_of_gridCells].
Qed.

End Sampling.


(** ** Food placement: statements *)

Section SamplingClaims.

Implicit Types (exclude : gset string) (gridSize : Z) (rng : nat → Q)
  (p free : Point) (fuel n : nat).

(** C6: when the excluded set has at least [gridSize * gridSize] keys,
    [randPointExcluding] throws without reading the random source; a point
    it returns has its key outside the excluded set; and when the set is
    smaller the call returns the first drawn point that is not excluded. *)
Theorem randPointExcluding_throws_or_avoids exclude gridSize rng fuel n :
  (gridSize * gridSize ≤ Z.of_nat (size exclude) →
   randPointExcluding exclude gridSize rng fuel n
   = (Throws "No available points to place food", n)) ∧
  (∀ p n', randPointExcluding exclude gridSize rng fuel n = (Returns p, n') →
     keyOf p ∉ exclude) ∧
  (Z.of_nat (size exclude) < gridSize * gridSize →
   ∀ i : nat,
     (∀ j : nat, (j < i)%nat →
        keyOf (drawAt rng gridSize (n + 2 * j)) ∈ exclude) →
     keyOf (drawAt rng gridSize (n + 2 * i)) ∉ exclude →
     (i < fuel)%nat →
     randPointExcluding exclude gridSize rng fuel n
     = (Returns (drawAt rng gridSize (n + 2 * i)), (n + 2 * S i)%nat)).
Proof.
  unfold randPointExcluding. cbv zeta.
  destruct (Z.geb_spec (Z.of_nat (size exclude)) (gridSize * gridSize))
    as [Hfull|Hroom].
  - split; [done|]. split; [done | lia].
  - split; [lia|]. split.
    + intros p n'. apply rejectionLoop_avoids.
    + intros _ i. apply rejectionLoop_first_free.
Qed.

End SamplingClaims.

(** *** One free cell *)

Section OneFreeCell.

Variables (exclude : gset string) (gridSize : Z) (free : Point)
  (rng : nat → Q).

Hypothesis free_inGrid : inGrid gridSize free.
Hypothesis exclude_all_but_free :
  ∀ k : string,
    k ∈ exclude ↔ ∃ p, inGrid gridSize p ∧ p ≠ free ∧ k = keyOf p.
Hypothesis rng_unit : unitSource rng.

Lemma one_free_gridSize_pos : 0 < gridSize.
Proof using free_inGrid. destruct free_inGrid. lia. Qed.

Lemma one_free_exclude : exclude = allCellsBut gridSize free.
Proof using exclude_all_but_free.
  apply set_eq. intros k.
  by rewrite exclude_all_but_free, elem_of_allCellsBut.
Qed.

(** The size test passes: one key is missing from the set. *)
Lemma one_free_not_full :
  (Z.of_nat (size exclude) >=? gridSize * gridSize) = false.
Proof using free_inGrid exclude_all_but_free.
  rewrite one_free_exclude, size_allCellsBut by done.
  pose proof one_free_gridSize_pos.
  destruct (Z.geb_spec (Z.of_nat (Z.to_nat gridSize * Z.to_nat gridSize - 1))
              (gridSize * gridSize)); [nia | done].
Qed.

(** A draw is rejected exactly when it is not the free cell. *)
Lemma one_free_rejects (m : nat) :
  keyOf (drawAt rng gridSize m) ∈ exclude ↔ drawAt rng gridSize m ≠ free.
Proof using free_inGrid exclude_all_but_free rng_unit.
  rewrite exclude_all_but_free. split.
  - intros (p & _ & Hne & Hk). apply keyOf_inj in Hk. by rewrite Hk.
  - intros Hne. exists (drawAt rng gridSize m).
    split; [|done]. apply drawAt_inGrid; [done | apply one_free_gridSize_pos].
Qed.

Lemma one_free_loop_returns_free (fuel n : nat) (p : Point) (n' : nat) :
  rejectionLoop exclude gridSize rng fuel n = (Returns p, n') → p = free.
Proof using free_inGrid exclude_all_but_free rng_unit.
  revert n. induction fuel as [|fuel IH]; intros n; [done|].
  rewrite rejectionLoop_S. case_bool_decide as Hin; [apply IH|].
  intros [= <- _]. destruct (decide (drawAt rng gridSize n = free)); [done|].
  by destruct Hin; apply one_free_rejects.
Qed.

Lemma one_free_loop_hits (fuel n i : nat) :
  drawAt rng gridSize (n + 2 * i) = free → (i < fuel)%nat →
  ∃ n', rejectionLoop exclude gridSize rng fuel n = (Returns free, n').
Proof using free_inGrid exclude_all_but_free rng_unit.
  revert n i. induction fuel as [|fuel IH]; intros n i Hhit Hfuel; [lia|].
  rewrite rejectionLoop_S. case_bool_decide as Hin.
  - destruct i as [|i].
    { replace (n + 2 * 0)%nat with n in Hhit by lia.
      by apply one_free_rejects in Hin. }
    apply (IH (S (S n)) i); [|lia].
    by replace (S (S n) + 2 * i)%nat with (n + 2 * S i)%nat by lia.
  - destruct (decide (drawAt rng gridSize n = free)) as [->|Hne]; [by eexists|].
    by destruct Hin; apply one_free_rejects.
Qed.

(** C7 (as amended): when the excluded set is made of the keys of all the
    cells of the grid but one, and the random numbers are in [[0, 1)],
    [randPointExcluding] never throws and never returns another cell than
    the free one; it returns the free cell as soon as a draw lands on it,
    and is still in its loop as long as no draw has. *)
Theorem randPointExcluding_single_free_cell :
  (∀ fuel n msg n',
     randPointExcluding exclude gridSize rng fuel n ≠ (Throws msg, n')) ∧
  (∀ fuel n p n',
     randPointExcluding exclude gridSize rng fuel n = (Returns p, n') →
     p = free) ∧
  (∀ fuel n (i : nat),
     drawAt rng gridSize (n + 2 * i) = free → (i < fuel)%nat →
     ∃ n', randPointExcluding exclude gridSize rng fuel n
           = (Returns free, n')) ∧
  (∀ fuel n,
     (∀ i : nat, (i < fuel)%nat → drawAt rng gridSize (n + 2 * i) ≠ free) →
     randPointExcluding exclude gridSize rng fuel n
     = (Spins, (n + 2 * fuel)%nat)).
Proof using free_inGrid exclude_all_but_free rng_unit.
  unfold randPointExcluding. cbv zeta. rewrite one_free_not_full.
  split; [intros; apply rejectionLoop_not_throws|].
  split; [apply one_free_loop_returns_free|].
  split; [apply one_free_loop_hits|].
  intros fuel n Hnever. apply rejectionLoop_spins.
  intros j Hj. apply one_free_rejects, Hnever, Hj.
Qed.

End OneFreeCell.


(** A board of side 2 filled by the excluded set: the call throws. *)
Lemma randPointExcluding_throws_or_avoids_witness :
  2 * 2 ≤ Z.of_nat (size (list_to_set (keyOf <$> gridCells 2) : gset string)) ∧
  randPointExcluding (list_to_set (keyOf <$> gridCells 2)) 2 (λ _, 0.5%Q) 7 0
  = (Throws "No available points to place food", 0%nat).
Proof.
  assert (Hfull : 2 * 2
      ≤ Z.of_nat (size (list_to_set (keyOf <$> gridCells 2) : gset string))).
  { vm_compute. discriminate. }
  split; [exact Hfull|].
  exact (proj1 (randPointExcluding_throws_or_avoids
                  (list_to_set (keyOf <$> gridCells 2)) 2 (λ _, 0.5%Q) 7 0)
           Hfull).
Defined.

(** 'places food only on available cells', with a source whose fourth draw
    lands on the free cell (3,2). *)
Lemma randPointExcluding_single_free_cell_witness :
  inGrid 4 (3, 2) ∧ unitSource fourthDrawHits ∧
  ∃ n', randPointExcluding (allCellsBut 4 (3, 2)) 4 fourthDrawHits 10 0
        = (Returns (3, 2), n').
Proof.
  assert (Hfree : inGrid 4 (3, 2)) by (unfold inGrid; simpl; lia).
  assert (Hrng : unitSource fourthDrawHits).
  { intros n. unfold fourthDrawHits.
    do 8 (destruct n as [|n]; [by split|]). by split. }
  split; [exact Hfree|]. split; [exact Hrng|].
  destruct (randPointExcluding_single_free_cell (allCellsBut 4 (3, 2)) 4
              (3, 2) fourthDrawHits Hfree (elem_of_allCellsBut 4 (3, 2)) Hrng)
    as (_ & _ & Hhit & _).
  apply (Hhit 10%nat 0%nat 3%nat); [reflexivity | lia].
Defined.

(** C7, as stated, fails on a source that never lands on the free cell:
    with every random number 0 each draw is (0,0), which is excluded, and
    no number of turns of the loop makes the call return. *)
Lemma single_free_cell_never_drawn :
  inGrid 4 (3, 2) ∧ unitSource (λ _, 0%Q) ∧
  ¬ ∃ fuel p n',
      randPointExcluding (allCellsBut 4 (3, 2)) 4 (λ _, 0%Q) fuel 0
      = (Returns p, n').
Proof.
  split; [unfold inGrid; simpl; lia|]. split; [by intros n; split|].
  intros (fuel & p & n' & Hret). unfold randPointExcluding in Hret.
  cbv zeta in Hret.
  replace (Z.of_nat (size (allCellsBut 4 (3, 2))) >=? 4 * 4) with false
    in Hret by (by vm_compute).
  rewrite rejectionLoop_spins in Hret; [done|].
  intros j _. apply elem_of_allCellsBut. exists (0, 0).
  split; [unfold inGrid; simpl; lia|]. by split.
Qed.


(** ** The driver: tick interval and reset *)

Section DriverClaims.

Import Driver.

Implicit Types (st : GameState) (rng : nat → Q) (fuel n : nat).











(** What a completed reset leaves: the initial snake, direction RIGHT,
    score 0, no game over, a food off the snake, the selected speed label,
    and the interval of the preset [normal] whatever that label is. *)
Lemma reset_state st rng fuel n st' n' :
  reset st rng fuel n = (Returns st', n') →
  Driver.snake st' = INITIAL_SNAKE ∧ directionRef st' = RIGHT ∧
  score st' = 0 ∧ gameOver st' = false ∧
  (Driver.food st' ∉ INITIAL_SNAKE) ∧
  speedLabel st' = speedLabel st ∧
  msPerTickRef st' = SPEED_LEVELS normal.
Proof.
  unfold reset. cbv zeta.
  destruct (randPointExcluding _ _ _ _ _) as [[p|msg|] m] eqn:Hfood; [|done..].
  intros [= <- _]. cbn.
  repeat split.
  apply randPointExcluding_avoids in Hfood.
  by rewrite elem_of_keys in Hfood.
Qed.

(** The New button resets in the same way and leaves the game running. *)
Lemma newGame_state st rng fuel n st' n' :
  newGame st rng fuel n = (Returns st', n') →
  running st' = true ∧ speedLabel st' = speedLabel st ∧
  msPerTickRef st' = SPEED_LEVELS normal.
Proof.
  unfold newGame, reset. cbv zeta. cbn.
  destruct (randPointExcluding _ _ _ _ _) as [[p|msg|] m]; [|done..].
  by intros [= <- _].
Qed.

(** The difficulty selector is the one place that applies the base
    interval of the selected preset. *)
Lemma setSpeedLabel_interval (l : SpeedLabel) st :
  l ≠ speedLabel st →
  speedLabel (setSpeedLabel l st) = l ∧
  msPerTickRef (setSpeedLabel l st) = SPEED_LEVELS l.
Proof.
  intros Hne. unfold setSpeedLabel.
  destruct l, (speedLabel st); done.
Qed.

(** C5: a reset from a finished game with the preset [fast] selected. The
    snake, direction, score and food are those of a new game and the label
    is still [fast], but the interval is 200 ms, the base of [normal], and
    not the 120 ms of [fast]. *)
Theorem reset_ignores_selected_speed :
  reset (mkState classic [(5, 5); (5, 4); (4, 4)] (3, 3) true 7 fast DOWN
           true 114) (λ _, 0.55%Q) 1 0
  = (Returns (mkState classic INITIAL_SNAKE (5, 5) false 0 fast RIGHT
                true 200), 2%nat) ∧
  SPEED_LEVELS fast = 120%Q ∧ ¬ (200 == SPEED_LEVELS fast)%Q.
Proof.
  split; [by vm_compute|]. split; [done|]. by vm_compute.
Qed.

End DriverClaims.




(** * Further properties *)

(** ** Moves on the torus *)

Section Torus.

Implicit Types (head food p : Point) (rest prev : list Point)
  (dir : Direction) (gridSize : Z).

(** Case analysis on the comparisons of [wrapCoord], closed by [lia]. *)
Ltac wrap_lia :=
  unfold wrapCoord;
  repeat match goal with
    | |- context [?a <? ?b] => destruct (Z.ltb_spec a b)
    | |- context [?a >=? ?b] => destruct (Z.geb_spec a b)
    end; cbv iota; intros; lia.

(** On a coordinate one step off the grid at most, the wrap is the
    remainder modulo the side. *)
Lemma wrapCoord_mod (x gridSize : Z) :
  0 < gridSize → -1 ≤ x ≤ gridSize → wrapCoord x gridSize = x mod gridSize.
Proof.
  intros Hg Hx. unfold wrapCoord.
  destruct (Z.ltb_spec x 0) as [Hneg|Hpos].
  - replace x with (-1) by lia.
    apply Z.mod_unique with (q := -1); lia.
  - destruct (Z.geb_spec x gridSize) as [Hge|Hlt].
    + replace x with gridSize by lia. by rewrite Z.mod_same by lia.
    + by rewrite Z.mod_small by lia.
Qed.

Lemma newHeadOf_mod head dir gridSize :
  inGrid gridSize head →
  newHeadOf head dir gridSize
  = ((head.1 + (stepOffset dir).1) mod gridSize,
     (head.2 + (stepOffset dir).2) mod gridSize).
Proof.
  destruct head as [r c]. intros [Hr Hc]. simpl in *.
  unfold newHeadOf. destruct dir; simpl; f_equal;
    rewrite ?Z.add_0_r; try (apply wrapCoord_mod; lia);
    by rewrite wrapCoord_mod, ?Z.add_opp_r by lia.
Qed.

Lemma walk_mod (k : nat) head dir gridSize :
  inGrid gridSize head →
  walk k head dir gridSize
  = ((head.1 + Z.of_nat k * (stepOffset dir).1) mod gridSize,
     (head.2 + Z.of_nat k * (stepOffset dir).2) mod gridSize).
Proof.
  intros Hin. assert (Hg : 0 < gridSize) by (destruct Hin; lia).
  induction k as [|k IH].
  - destruct head as [r c], Hin as [Hr Hc]. simpl in *.
    by rewrite !Z.add_0_r, !Z.mod_small by lia.
  - unfold walk in *. rewrite Nat.iter_succ, IH.
    rewrite newHeadOf_mod by (split; simpl; apply Z.mod_pos_bound; lia).
    cbn [fst snd]. rewrite !Zplus_mod_idemp_l. f_equal; f_equal; lia.
Qed.

(** X1: a move and the move in the opposite direction bring the head of an
    in-grid snake back to its cell. *)
Theorem opposite_moves_cancel head dir gridSize :
  inGrid gridSize head →
  newHeadOf (newHeadOf head dir gridSize) (Driver.OPPOSITES dir) gridSize
  = head.
Proof.
  intros Hin. assert (Hg : 0 < gridSize) by (destruct Hin; lia).
  rewrite (newHeadOf_mod (newHeadOf head dir gridSize))
    by by apply newHeadOf_inGrid.
  rewrite newHeadOf_mod by done. cbn [fst snd].
  rewrite !Zplus_mod_idemp_l.
  destruct head as [r c], Hin as [Hr Hc]. simpl in *.
  destruct dir; simpl; f_equal;
    rewrite <- Z.add_assoc; simpl; rewrite ?Z.add_0_r; apply Z.mod_small; lia.
Qed.

Lemma newHeadOf_ne head dir gridSize :
  2 ≤ gridSize → inGrid gridSize head → newHeadOf head dir gridSize ≠ head.
Proof.
  intros Hg Hin. destruct head as [r c], Hin as [Hr Hc].
  unfold newHeadOf. simpl in *.
  destruct dir; simpl; intros [= H1 H2]; revert H1 H2; wrap_lia.
Qed.

(** X2: on a grid of side at least 2 a move takes the head of an in-grid
    snake to another cell of the grid, which shares its row or its column. *)
Theorem move_changes_cell head dir gridSize :
  2 ≤ gridSize → inGrid gridSize head →
  let nh := newHeadOf head dir gridSize in
  nh ≠ head ∧ inGrid gridSize nh ∧ (nh.1 = head.1 ∨ nh.2 = head.2).
Proof.
  intros Hg Hin nh. split; [|split; [by apply newHeadOf_inGrid|]].
  - by apply newHeadOf_ne.
  - unfold nh, newHeadOf. destruct head as [r c], Hin as [Hr Hc]. simpl in *.
    destruct dir; simpl; [left|left|right|right]; wrap_lia.
Qed.

(** X3: [gridSize] moves in one direction take the head of an in-grid snake
    around the torus and back to its cell. *)
Theorem walk_around head dir gridSize :
  inGrid gridSize head →
  walk (Z.to_nat gridSize) head dir gridSize = head.
Proof.
  intros Hin. assert (Hg : 0 < gridSize) by (destruct Hin; lia).
  rewrite walk_mod by done. rewrite Z2Nat.id by lia.
  destruct head as [r c], Hin as [Hr Hc]. simpl in *.
  f_equal; rewrite (Z.mul_comm gridSize), Z.mod_add by lia;
    apply Z.mod_small; lia.
Qed.

End Torus.

(** ** More on the tick function *)

Section StepMore.

Implicit Types (head food p : Point) (rest prev : list Point)
  (dir : Direction) (gridSize : Z).

(** X4: a snake without a repeated cell is stepped to a snake without a
    repeated cell, whatever the direction, the food and the grid. *)
Theorem stepSnake_no_repeated_cell head rest dir food gridSize :
  NoDup (head :: rest) →
  ∃ r, stepSnake (head :: rest) dir food gridSize = Some r ∧ NoDup (snake r).
Proof.
  intros Hnd.
  destruct (stepSnake_returns head rest dir food gridSize) as [r Hr].
  exists r. split; [done|]. by eapply stepSnake_preserves_NoDup.
Qed.

(** X5: [stepSnake] reports a meal exactly when it reports no collision
    and the wrapped candidate head is the food; the head of the returned
    snake is then the food cell. *)
Theorem ate_iff_head_on_food head rest dir food gridSize r :
  stepSnake (head :: rest) dir food gridSize = Some r →
  (ate r = true
   ↔ collision r = false ∧ newHeadOf head dir gridSize = food) ∧
  (ate r = true → snake r !! 0%nat = Some food).
Proof.
  rewrite stepSnake_cons. cbv zeta.
  set (nh := newHeadOf head dir gridSize).
  destruct (bool_decide (nh = food)) eqn:Heat.
  - apply bool_decide_eq_true_1 in Heat.
    case_match; intros [= <-]; cbn [ate collision snake].
    + split; [|done]. split; [done | by intros [? _]].
    + split; [by split | by rewrite Heat].
  - apply bool_decide_eq_false_1 in Heat.
    case_match; intros [= <-]; cbn [ate collision snake];
      (split; [|done]); (split; [done | by intros [_ ?]]).
Qed.

(** X6: on a grid of side at least 2 a snake of one segment never
    collides: it moves to the next cell, and keeps its old cell behind it
    when the next cell is the food. *)
Theorem single_segment_never_collides head dir food gridSize :
  2 ≤ gridSize → inGrid gridSize head →
  let nh := newHeadOf head dir gridSize in
  stepSnake [head] dir food gridSize
  = Some (mkStep (if bool_decide (nh = food) then [nh; head] else [nh])
            (bool_decide (nh = food)) false).
Proof.
  intros Hg Hin nh. rewrite stepSnake_cons. cbv zeta. fold nh.
  assert (Hne : nh ≠ head) by by apply newHeadOf_ne.
  rewrite bool_decide_eq_false_2; [by destruct (bool_decide (nh = food))|].
  by rewrite list_elem_of_singleton.
Qed.

End StepMore.

(** ** More on food placement *)

Section SamplingMore.

Implicit Types (exclude : gset string) (gridSize : Z) (rng : nat → Q)
  (p free : Point) (fuel n : nat).

Lemma rejectionLoop_inGrid exclude gridSize rng fuel n p n' :
  unitSource rng → 0 < gridSize →
  rejectionLoop exclude gridSize rng fuel n = (Returns p, n') →
  inGrid gridSize p.
Proof.
  intros Hrng Hg. revert n. induction fuel as [|fuel IH]; intros n; [done|].
  rewrite rejectionLoop_S. case_bool_decide; [apply IH|].
  intros [= <- _]. by apply drawAt_inGrid.
Qed.

Lemma randPointExcluding_inGrid exclude gridSize rng fuel n p n' :
  unitSource rng → 0 < gridSize →
  randPointExcluding exclude gridSize rng fuel n = (Returns p, n') →
  inGrid gridSize p.
Proof.
  intros Hrng Hg. unfold randPointExcluding. cbv zeta. case_match; [done|].
  by apply rejectionLoop_inGrid.
Qed.

(** X7: with random numbers in [[0, 1)] and a positive grid side, a point
    returned by [randPointExcluding] is a cell of the grid. *)
Theorem placed_food_inGrid exclude gridSize rng fuel n p n' :
  unitSource rng → 0 < gridSize →
  randPointExcluding exclude gridSize rng fuel n = (Returns p, n') →
  inGrid gridSize p.
Proof. apply randPointExcluding_inGrid. Qed.

(** The middle of the interval of the numbers that are floored to [x]. *)
Lemma midpointOf_unit (x gridSize : Z) :
  0 ≤ x < gridSize →
  (0 <= midpointOf x gridSize)%Q ∧ (midpointOf x gridSize < 1)%Q.
Proof.
  intros Hx. unfold midpointOf, Qle, Qlt. simpl.
  rewrite Pos2Z.inj_xO, Z2Pos.id by lia. lia.
Qed.

Lemma midpointOf_floor (x gridSize : Z) :
  0 ≤ x < gridSize →
  Qfloor (midpointOf x gridSize * inject_Z gridSize) = x.
Proof.
  intros Hx. unfold midpointOf, Qfloor, Qmult, inject_Z. simpl.
  rewrite Pos.mul_1_r, Pos2Z.inj_mul, Z2Pos.id by lia.
  symmetry. apply Z.div_unique with (r := gridSize); lia.
Qed.

Lemma sourceOf_unit p gridSize n :
  inGrid gridSize p → unitSource (sourceOf p gridSize n).
Proof.
  intros [Hr Hc] k. unfold sourceOf.
  destruct (Nat.eqb k n); by apply midpointOf_unit.
Qed.

Lemma sourceOf_draw p gridSize n :
  inGrid gridSize p → drawAt (sourceOf p gridSize n) gridSize n = p.
Proof.
  intros [Hr Hc]. destruct p as [r c]. unfold drawAt, randCoord, sourceOf.
  cbv beta. rewrite Nat.eqb_refl.
  replace (Nat.eqb (S n) n) with false by (symmetry; apply Nat.eqb_neq; lia).
  cbn [fst snd] in *. by rewrite !midpointOf_floor.
Qed.

(** When fewer keys are excluded than the grid has cells, one cell of the
    grid is not excluded. *)
Lemma room_has_free_cell exclude gridSize :
  0 < gridSize → Z.of_nat (size exclude) < gridSize * gridSize →
  ∃ p, inGrid gridSize p ∧ keyOf p ∉ exclude.
Proof.
  intros Hg Hroom.
  destruct (decide (Forall (λ p, keyOf p ∈ exclude) (gridCells gridSize)))
    as [Hall|Hsome].
  - exfalso.
    assert (Hsub : (list_to_set (keyOf <$> gridCells gridSize) : gset string)
                   ⊆ exclude).
    { intros k Hk. apply elem_of_list_to_set, list_elem_of_fmap in Hk
        as (p & -> & Hp).
      by eapply (proj1 (Forall_forall _ _) Hall). }
    apply subseteq_size in Hsub.
    rewrite size_list_to_set, length_fmap, length_gridCells in Hsub.
    + nia.
    + apply NoDup_fmap; [|apply NoDup_gridCells]. intros p q. apply keyOf_inj.
  - apply not_Forall_Exists in Hsome; [|apply _].
    apply Exists_exists in Hsome as (p & Hp & Hfree).
    exists p. split; [by apply elem_of_gridCells | done].
Qed.

(** X8: when [randPointExcluding] has room (fewer excluded keys than
    cells, on a grid of positive side), a cell of the grid is free and some
    run of [Math.random] makes the call return it at the first draw: the
    size test lets the loop start only when it can end. *)
Theorem room_lets_the_loop_end exclude gridSize n :
  0 < gridSize → Z.of_nat (size exclude) < gridSize * gridSize →
  ∃ p rng,
    inGrid gridSize p ∧ (keyOf p ∉ exclude) ∧ unitSource rng ∧
    ∀ fuel, (0 < fuel)%nat →
      randPointExcluding exclude gridSize rng fuel n = (Returns p, S (S n)).
Proof.
  intros Hg Hroom.
  destruct (room_has_free_cell exclude gridSize Hg Hroom) as (p & Hin & Hfree).
  exists p, (sourceOf p gridSize n).
  split; [done|]. split; [done|]. split; [by apply sourceOf_unit|].
  intros [|fuel] Hfuel; [lia|].
  unfold randPointExcluding. cbv zeta.
  destruct (Z.geb_spec (Z.of_nat (size exclude)) (gridSize * gridSize));
    [lia|].
  rewrite rejectionLoop_S, sourceOf_draw by done.
  by rewrite bool_decide_eq_false_2.
Qed.

End SamplingMore.

(** ** More on the driver *)

Section DriverMore.

Import Driver.

Implicit Types (st : GameState) (rng : nat → Q) (fuel n : nat)
  (head food p : Point) (rest prev : list Point).

Lemma OPPOSITES_involutive (d : Direction) : OPPOSITES (OPPOSITES d) = d.
Proof. by destruct d. Qed.

Lemma Direction_eqb_eq (a b : Direction) : Direction_eqb a b = true ↔ a = b.
Proof. destruct a, b; by split. Qed.


(** X9: a direction request never turns the snake round: after
    [handleKeyDown] the direction is the requested one or the old one, and
    it is not the opposite of the old one; nothing else changes. *)
Theorem handleKeyDown_never_reverses (nextDir : Direction) st :
  let st' := handleKeyDown nextDir st in
  directionRef st' ≠ OPPOSITES (directionRef st) ∧
  (directionRef st' = nextDir ∨ directionRef st' = directionRef st) ∧
  (nextDir ≠ OPPOSITES (directionRef st) → directionRef st' = nextDir) ∧
  Driver.snake st' = Driver.snake st ∧ Driver.food st' = Driver.food st ∧
  score st' = score st ∧ gameOver st' = gameOver st ∧
  msPerTickRef st' = msPerTickRef st.
Proof.
  unfold handleKeyDown.
  destruct (Direction_eqb (OPPOSITES nextDir) (directionRef st)) eqn:Hopp;
    cbn [negb directionRef Driver.snake Driver.food score gameOver msPerTickRef].
  - apply Direction_eqb_eq in Hopp.
    repeat split; [|by right|].
    + rewrite <- Hopp. by destruct nextDir.
    + intros Hne. destruct Hne. by rewrite <- Hopp, OPPOSITES_involutive.
  - repeat split; [|by left].
    intros ->. rewrite OPPOSITES_involutive in Hopp.
    by destruct (directionRef st).
Qed.

(** X10: the check of [handleKeyDown] is against the last request, not
    against the last move. Between two ticks a turn followed by the
    reverse of the travel direction are both accepted, and the next tick
    then runs the head of a snake of three segments or more into its neck:
    the game is over. *)
Theorem two_requests_reverse_and_end_game st head neck rest
    (turn : Direction) rng fuel n :
  Driver.snake st = head :: neck :: rest → rest ≠ [] →
  NoDup (Driver.snake st) →
  newHeadOf head (OPPOSITES (directionRef st)) (gridSize st) = neck →
  turn ≠ directionRef st → turn ≠ OPPOSITES (directionRef st) →
  let st' := handleKeyDown (OPPOSITES (directionRef st))
               (handleKeyDown turn st) in
  directionRef st' = OPPOSITES (directionRef st) ∧
  ∃ st'', tick st' rng fuel n = (Returns st'', n) ∧
          gameOver st'' = true ∧ Driver.snake st'' = Driver.snake st.
Proof.
  intros Hsnake Hrest Hnd Hneck Hturn1 Hturn2 st'.
  assert (Hdir : directionRef st' = OPPOSITES (directionRef st)).
  { unfold st', handleKeyDown.
    destruct (directionRef st), turn; done. }
  assert (Hsame : Driver.snake st' = Driver.snake st
                  ∧ Driver.food st' = Driver.food st
                  ∧ gridSize st' = gridSize st).
  { unfold st', handleKeyDown, gridSize. by repeat case_match. }
  destruct Hsame as (Hs & Hf & Hg).
  split; [done|].
  unfold tick. rewrite Hs, Hf, Hg, Hdir, Hsnake.
  rewrite (self_collision_on_nodup head (neck :: rest) _ _ _ 1%nat).
  - cbn [collision]. eexists. split; [reflexivity|].
    by split.
  - by rewrite <- Hsnake.
  - destruct rest; [done | simpl; lia].
  - by rewrite Hneck.
Qed.

(** What a tick does to each field, by the three cases of the step. *)
Lemma tick_cases st rng fuel n st' n' :
  tick st rng fuel n = (Returns st', n') →
  ∃ r, stepSnake (Driver.snake st) (directionRef st) (Driver.food st)
         (gridSize st) = Some r ∧
       boardPreset st' = boardPreset st ∧
       ((collision r = true ∧ Driver.snake st' = Driver.snake st
         ∧ Driver.food st' = Driver.food st ∧ score st' = score st)
        ∨ (collision r = false ∧ ate r = true
           ∧ Driver.snake st' = Game.snake r
           ∧ (keyOf (Driver.food st')
              ∉ (list_to_set (keyOf <$> Game.snake r) : gset string))
           ∧ score st' = score st + 1)
        ∨ (collision r = false ∧ ate r = false
           ∧ Driver.snake st' = Game.snake r
           ∧ Driver.food st' = Driver.food st ∧ score st' = score st)).
Proof.
  unfold tick.
  destruct (stepSnake _ _ _ _) as [r|] eqn:Hstep; [|done].
  cbv zeta. intros Htick. exists r. split; [done|]. revert Htick.
  destruct (collision r) eqn:Hcol.
  { intros [= <- _]. split; [done|]. left. by cbn. }
  destruct (ate r) eqn:Hate.
  - destruct (randPointExcluding _ _ _ _ _) as [[p|msg|] m] eqn:Hfood;
      [|done..].
    intros [= <- _]. split; [done|]. right. left. cbn.
    repeat split. by eapply randPointExcluding_avoids.
  - intros [= <- _]. split; [done|]. right. right. by cbn.
Qed.

Lemma stepSnake_result_inGrid head rest dir (food : Point) g r :
  Forall (inGrid g) (head :: rest) →
  stepSnake (head :: rest) dir food g = Some r →
  Forall (inGrid g) (Game.snake r).
Proof.
  intros Hall. rewrite stepSnake_cons. cbv zeta.
  assert (Hnh : inGrid g (newHeadOf head dir g)).
  { apply newHeadOf_inGrid. by inversion Hall. }
  case_match; intros [= <-]; cbn [Game.snake]; [done|].
  case_match;
    [|apply (Forall_removelast _ (newHeadOf head dir g :: head :: rest))];
    by constructor.
Qed.

Lemma stepSnake_result_length head rest dir (food : Point) g r :
  stepSnake (head :: rest) dir food g = Some r →
  collision r = false →
  length (Game.snake r)
  = (if ate r then S (length (head :: rest)) else length (head :: rest)).
Proof.
  rewrite stepSnake_cons. cbv zeta.
  case_match; intros [= <-]; cbn [Game.snake ate collision]; [done|].
  intros _. case_match; [done|].
  apply (length_removelast_cons (newHeadOf head dir g) (head :: rest)).
Qed.

(** A step that does not eat does not put the snake on the food. *)
Lemma stepSnake_result_off_food head rest dir (food : Point) g r :
  food ∉ head :: rest →
  stepSnake (head :: rest) dir food g = Some r →
  ate r = false → food ∉ Game.snake r.
Proof.
  intros Hoff. rewrite stepSnake_cons. cbv zeta.
  case_match; intros [= <-]; cbn [Game.snake ate]; [done|].
  intros Heat. rewrite Heat. apply bool_decide_eq_false_1 in Heat.
  intros Hin.
  change (food ∈ removelast (newHeadOf head dir g :: head :: rest)) in Hin.
  rewrite removelast_firstn_len in Hin.
  apply elem_of_take in Hin as (i & Hin & _).
  apply list_elem_of_lookup_2, elem_of_cons in Hin as [->|Hin]; done.
Qed.

(** A tick that reads the current food keeps a well-formed state
    well-formed. *)
Lemma tick_wellFormed st rng fuel n st' n' :
  tick st rng fuel n = (Returns st', n') → wellFormed st → wellFormed st'.
Proof.
  intros Htick (Hnd & Hin & Hoff & Hscore & Hlen).
  apply tick_cases in Htick as (r & Hstep & Hboard & Hcase).
  unfold wellFormed, gridSize in *. rewrite Hboard.
  destruct (Driver.snake st) as [|head rest] eqn:Hsnake; [done|].
  destruct Hcase as [(_ & -> & -> & ->)
                    |[(Hcol & Hate & -> & Hfood & ->)
                     |(Hcol & Hate & -> & -> & ->)]].
  - done.
  - split; [by eapply stepSnake_preserves_NoDup|].
    split; [by eapply stepSnake_result_inGrid|].
    split; [by rewrite elem_of_keys in Hfood|].
    split; [lia|].
    rewrite (stepSnake_result_length _ _ _ _ _ _ Hstep Hcol), Hate. lia.
  - split; [by eapply stepSnake_preserves_NoDup|].
    split; [by eapply stepSnake_result_inGrid|].
    split; [by eapply stepSnake_result_off_food|].
    split; [done|].
    by rewrite (stepSnake_result_length _ _ _ _ _ _ Hstep Hcol), Hate.
Qed.

Lemma reset_wellFormed st rng fuel n st' n' :
  reset st rng fuel n = (Returns st', n') → wellFormed st'.
Proof.
  unfold reset. cbv zeta.
  destruct (randPointExcluding _ _ _ _ _) as [[p|msg|] m] eqn:Hfood; [|done..].
  intros [= <- _]. unfold wellFormed, gridSize. cbn.
  apply randPointExcluding_avoids in Hfood. rewrite elem_of_keys in Hfood.
  split; [|split; [|done]].
  - apply (bool_decide_unpack _). by vm_compute.
  - unfold INITIAL_SNAKE, inGrid.
    destruct (boardPreset st); repeat constructor; simpl; lia.
Qed.


End DriverMore.

(** ** The best score *)

Section BestScoreProps.

Import BestScore.

Lemma digitValue_pretty (d : N) :
  (d < 10)%N → digitValue (pretty_N_char d) = Some d.
Proof.
  intros Hd.
  assert (d = 0 ∨ d = 1 ∨ d = 2 ∨ d = 3 ∨ d = 4 ∨ d = 5 ∨ d = 6 ∨ d = 7
          ∨ d = 8 ∨ d = 9)%N as Hcases by lia.
  by repeat destruct Hcases as [->|Hcases]; [..|subst].
Qed.

(** Reading the digits that [pretty] writes for [x] in front of [s]
    appends them to the number read so far. *)
Lemma parseDigits_pretty_N_go (x : N) (acc : N) (s : string) :
  ∃ k : N,
    parseDigits acc (pretty_N_go x s) = parseDigits (acc * 10 ^ k + x) s.
Proof.
  revert acc s. induction (N.lt_wf_0 x) as [x _ IH]; intros acc s.
  destruct (decide (x = 0)%N) as [->|Hx].
  - exists 0%N. rewrite pretty_N_go_0. f_equal. lia.
  - rewrite pretty_N_go_step by lia.
    destruct (IH (x `div` 10)%N (N.div_lt x 10 ltac:(lia) ltac:(lia)) acc
                (String (pretty_N_char (x `mod` 10)) s)) as [k ->].
    exists (k + 1)%N. cbn [parseDigits].
    rewrite digitValue_pretty by (apply N.mod_lt; lia).
    f_equal. rewrite N.pow_add_r, N.pow_1_r.
    pose proof (N.div_mod x 10 ltac:(lia)). lia.
Qed.

(** What [pretty] writes for a positive number starts with a digit. *)
Lemma pretty_N_go_starts_with_digit (x : N) (s : string) :
  (0 < x)%N →
  ∃ (d : N) (s' : string),
    (d < 10)%N ∧ pretty_N_go x s = String (pretty_N_char d) s'.
Proof.
  revert s. induction (N.lt_wf_0 x) as [x _ IH]; intros s Hx.
  rewrite pretty_N_go_step by lia.
  destruct (decide (x `div` 10 = 0)%N) as [->|Hdiv].
  - rewrite pretty_N_go_0. exists (x `mod` 10)%N, s.
    split; [apply N.mod_lt; lia | done].
  - apply IH; [apply N.div_lt; lia | by apply N.neq_0_lt_0].
Qed.

(** A string that starts with a digit is read as its prefix of digits. *)
Lemma parseInt_digits (d : N) (s' : string) :
  (d < 10)%N →
  parseInt (String (pretty_N_char d) s')
  = Some (Z.of_N (parseDigits 0 (String (pretty_N_char d) s'))).
Proof.
  intros Hd.
  assert (d = 0 ∨ d = 1 ∨ d = 2 ∨ d = 3 ∨ d = 4 ∨ d = 5 ∨ d = 6 ∨ d = 7
          ∨ d = 8 ∨ d = 9)%N as Hcases by lia.
  repeat destruct Hcases as [->|Hcases]; [..|subst];
    unfold parseInt; simpl; by destruct (parseDigits _ s').
Qed.

(** The same after a minus sign. *)
Lemma parseInt_minus_digits (d : N) (s' : string) :
  (d < 10)%N →
  parseInt (String "-" (String (pretty_N_char d) s'))
  = Some (- Z.of_N (parseDigits 0 (String (pretty_N_char d) s'))).
Proof.
  intros Hd.
  assert (d = 0 ∨ d = 1 ∨ d = 2 ∨ d = 3 ∨ d = 4 ∨ d = 5 ∨ d = 6 ∨ d = 7
          ∨ d = 8 ∨ d = 9)%N as Hcases by lia.
  repeat destruct Hcases as [->|Hcases]; [..|subst];
    unfold parseInt; simpl; by destruct (parseDigits _ s').
Qed.

Lemma parseDigits_pretty_pos (p : positive) :
  ∃ (d : N) (s' : string),
    (d < 10)%N ∧ pretty_N_go (N.pos p) "" = String (pretty_N_char d) s' ∧
    parseDigits 0 (String (pretty_N_char d) s') = N.pos p.
Proof.
  destruct (pretty_N_go_starts_with_digit (N.pos p) "" ltac:(lia))
    as (d & s' & Hd & Hs).
  exists d, s'. split; [done|]. split; [done|]. rewrite <- Hs.
  destruct (parseDigits_pretty_N_go (N.pos p) 0 "") as [k ->]. simpl. lia.
Qed.

(** [parseInt] reads back the integer that the template literal wrote. *)
Lemma parseInt_pretty (z : Z) : parseInt (pretty z) = Some z.
Proof.
  destruct z as [|p|p]; [done|..];
    destruct (parseDigits_pretty_pos p) as (d & s' & Hd & Hs & Hval).
  - change (pretty (Z.pos p)) with (pretty_N_go (N.pos p) "").
    by rewrite Hs, parseInt_digits, Hval.
  - change (pretty (Z.neg p)) with (String "-" (pretty_N_go (N.pos p) "")).
    by rewrite Hs, parseInt_minus_digits, Hval.
Qed.

Lemma pretty_Z_nonempty (z : Z) : pretty z ≠ "".
Proof.
  intros Hempty. pose proof (parseInt_pretty z) as Hparse.
  by rewrite Hempty in Hparse.
Qed.

Lemma getHighScore_setHighScore (score : Z) (items : gmap string string) :
  getHighScore (setHighScore score (Some items)) = Some score.
Proof.
  unfold getHighScore, setHighScore. rewrite lookup_insert_eq.
  pose proof (pretty_Z_nonempty score).
  destruct (pretty score) eqn:Hs; [done|]. rewrite <- Hs.
  apply parseInt_pretty.
Qed.

(** X14: a best score written by [setHighScore] is the one that
    [getHighScore] reads afterwards, for every integer score and every
    content of the store; when [localStorage] cannot be used nothing is
    written and the best score read is 0. *)
Theorem best_score_round_trip (score : Z) (items : gmap string string) :
  getHighScore (setHighScore score (Some items)) = Some score ∧
  setHighScore score None = None ∧
  getHighScore None = Some 0 ∧
  (items !! STORAGE_KEY = None → getHighScore (Some items) = Some 0).
Proof.
  split; [|split; [done|split; [done|]]].
  - apply getHighScore_setHighScore.
  - intros Hnone. unfold getHighScore. by rewrite Hnone.
Qed.

(** X15: at the end of a game the effect raises a numeric best score to
    the score when the score is higher, and writes it to the store, so that
    the next session reads the larger of the two; otherwise, and as long as
    the game is not over, the best score and the store are left alone. *)
Theorem recordHighScore_keeps_maximum (gameOver : bool) (score h : Z)
    (items : gmap string string) :
  getHighScore (Some items) = Some h →
  let '(highScore', store') :=
    recordHighScore gameOver score (Some h) (Some items) in
  highScore' = Some (if gameOver then Z.max h score else h) ∧
  getHighScore store' = highScore' ∧
  (gameOver = false ∨ score ≤ h → store' = Some items).
Proof.
  intros Hstored. unfold recordHighScore.
  destruct gameOver; cbn [andb]; [|by repeat split].
  destruct (Z.ltb_spec h score) as [Hlt|Hge].
  - split; [f_equal; lia|].
    split; [apply getHighScore_setHighScore|].
    intros [|]; [done | lia].
  - split; [f_equal; lia|]. by split.
Qed.

(** X16: when the stored text, after its leading blanks, starts with a
    character that is neither a sign nor a digit, [getHighScore] returns
    NaN; and from NaN the effect records no score, whatever the score and
    the store. *)
Theorem unreadable_best_score_sticks (items : gmap string string)
    (s : string) (c : ascii) (rest : string) :
  items !! STORAGE_KEY = Some s →
  trimStart s = String c rest →
  c ≠ "-"%char → c ≠ "+"%char → digitValue c = None →
  getHighScore (Some items) = None ∧
  ∀ (gameOver : bool) (score : Z) (store : option (gmap string string)),
    recordHighScore gameOver score None store = (None, store).
Proof.
  intros Hitem Htrim Hminus Hplus Hdigit. split.
  - unfold getHighScore. rewrite Hitem.
    destruct s as [|c0 s0]; [done|].
    unfold parseInt. rewrite Htrim.
    destruct c as [[] [] [] [] [] [] [] []];
      first [done | by vm_compute in Hdigit | by vm_compute].
  - intros gameOver score store. unfold recordHighScore.
    by rewrite andb_false_r.
Qed.

End BestScoreProps.

(** ** Board metrics and board cells *)

Section BoardProps.

Import Board.

Implicit Types (head food p : Point) (rest : list Point) (gridSize : Z).

(** X17: for a grid of positive side, [updateBoardMetrics] gives cells of
    at least 24 px and at most the larger of 24 px and the base cell size,
    and a board of exactly [gridSize] cells a side; when 24 px cells fit in
    the room available (the slot width and 72% of the window height), the
    board does not exceed that room. *)
Theorem updateBoardMetrics_bounds (clientWidth : option Q)
    (innerWidth innerHeight : Q) gridSize (baseCellSize : Z) :
  0 < gridSize →
  let '(boardSize, cellSize) :=
    updateBoardMetrics clientWidth innerWidth innerHeight gridSize
      baseCellSize in
  let room := Qmin (default innerWidth clientWidth) (innerHeight * 0.72) in
  24 ≤ cellSize ≤ Z.max 24 baseCellSize ∧
  boardSize = cellSize * gridSize ∧
  ((inject_Z (24 * gridSize) <= room)%Q → (inject_Z boardSize <= room)%Q).
Proof.
  intros Hg. unfold updateBoardMetrics. cbv zeta.
  replace (match clientWidth with Some w => w | None => innerWidth end)
    with (default innerWidth clientWidth) by by destruct clientWidth.
  set (room := Qmin (default innerWidth clientWidth) (innerHeight * 0.72)).
  set (target := Qmin (inject_Z (gridSize * baseCellSize)) room).
  set (f := Qfloor (target / inject_Z gridSize)).
  assert (Hg' : (0 < inject_Z gridSize)%Q) by (by rewrite <- (Zlt_Qlt 0)).
  assert (Hnz : ¬ (inject_Z gridSize == 0)%Q).
  { intros Hz. rewrite Hz in Hg'. by apply Qlt_irrefl in Hg'. }
  assert (Hf_base : f ≤ baseCellSize).
  { rewrite <- (Qfloor_Z baseCellSize). apply Qfloor_resp_le.
    apply Qle_shift_div_r; [done|].
    rewrite <- inject_Z_mult, (Z.mul_comm baseCellSize).
    apply Q.le_min_l. }
  assert (Hf_room : (inject_Z (f * gridSize) <= room)%Q).
  { rewrite inject_Z_mult.
    apply Qle_trans with (target / inject_Z gridSize * inject_Z gridSize)%Q.
    - apply Qmult_le_compat_r; [apply Qfloor_le | by apply Qlt_le_weak].
    - rewrite Qmult_comm, Qmult_div_r by done. apply Q.le_min_r. }
  split; [lia|]. split; [done|].
  intros Hfits. destruct (Z.max_spec 24 f) as [[_ ->]|[_ ->]]; done.
Qed.

(** The points of the indices are the cells of the grid, each once. *)
Lemma pointOfIndex_inGrid gridSize (i : Z) :
  0 < gridSize → 0 ≤ i < gridSize * gridSize →
  inGrid gridSize (pointOfIndex gridSize i).
Proof.
  intros Hg Hi. unfold inGrid, pointOfIndex. cbn [fst snd].
  rewrite Z.rem_mod_nonneg by lia.
  pose proof (Z.mod_pos_bound i gridSize Hg).
  split; [|done]. split; [apply Z.div_pos; lia|].
  apply Z.div_lt_upper_bound; lia.
Qed.

Lemma pointOfIndex_index gridSize p :
  inGrid gridSize p →
  0 ≤ p.1 * gridSize + p.2 < gridSize * gridSize ∧
  pointOfIndex gridSize (p.1 * gridSize + p.2) = p.
Proof.
  destruct p as [r c]. intros [Hr Hc]. cbn [fst snd] in *.
  split; [nia|]. unfold pointOfIndex.
  rewrite Z.rem_mod_nonneg by nia.
  rewrite Z.div_add_l, Z.div_small, Z.add_0_r by lia.
  by rewrite Z.add_comm, Z.mod_add, Z.mod_small by lia.
Qed.

Lemma indexPoints_perm gridSize :
  0 < gridSize →
  pointOfIndex gridSize <$> seqZ 0 (gridSize * gridSize)
  ≡ₚ gridCells gridSize.
Proof.
  intros Hg. apply NoDup_Permutation.
  - apply NoDup_fmap_2_strong; [|apply NoDup_seqZ].
    intros i j Hi Hj Heq. apply elem_of_seqZ in Hi, Hj.
    unfold pointOfIndex in Heq. injection Heq as Hdiv Hrem.
    rewrite !Z.rem_mod_nonneg in Hrem by lia.
    rewrite (Z.div_mod i gridSize), (Z.div_mod j gridSize) by lia.
    by rewrite Hdiv, Hrem.
  - apply NoDup_gridCells.
  - intros p. rewrite elem_of_gridCells, list_elem_of_fmap. split.
    + intros (i & -> & Hi). apply elem_of_seqZ in Hi.
      apply pointOfIndex_inGrid; lia.
    + intros Hin. destruct (pointOfIndex_index gridSize p Hin) as [Hi Hp].
      exists (p.1 * gridSize + p.2). split; [done|].
      apply elem_of_seqZ. lia.
Qed.

Lemma length_filter_fmap {A B} (f : A → B) (P : B → Prop)
    `{!∀ b, Decision (P b)} (l : list A) :
  length (filter P (f <$> l)) = length (filter (λ a, P (f a)) l).
Proof.
  induction l as [|a l IH]; [done|].
  rewrite fmap_cons, !filter_cons. case_decide; simpl; by rewrite IH.
Qed.

(** Among the points of the indices, those of a list of distinct cells of
    the grid are as many as the list is long. *)
Lemma count_indexPoints gridSize (l : list Point) :
  0 < gridSize → NoDup l → Forall (inGrid gridSize) l →
  length (filter (λ p, p ∈ l)
            (pointOfIndex gridSize <$> seqZ 0 (gridSize * gridSize)))
  = length l.
Proof.
  intros Hg Hnd Hin.
  rewrite (indexPoints_perm gridSize Hg).
  apply Permutation_length, NoDup_Permutation; [|done|].
  - apply NoDup_filter, NoDup_gridCells.
  - intros p. rewrite list_elem_of_filter, elem_of_gridCells.
    split; [by intros [? _]|]. intros Hp. split; [done|].
    by eapply (proj1 (Forall_forall _ _) Hin).
Qed.

(** X18: for a snake without a repeated cell that lies in the grid, and
    an in-grid food, the board has [gridSize * gridSize] cells with
    distinct keys, of which as many are marked as segments as the snake
    has segments, exactly one is marked as the head, and exactly one as
    the food; the head cell is one of the segment cells. *)
Theorem board_shows_the_snake head rest food gridSize :
  0 < gridSize →
  NoDup (head :: rest) → Forall (inGrid gridSize) (head :: rest) →
  inGrid gridSize food →
  let cells := renderCells head rest food gridSize in
  length cells = Z.to_nat (gridSize * gridSize) ∧
  NoDup (key <$> cells) ∧
  length (filter (λ c, isSnake c = true) cells) = length (head :: rest) ∧
  length (filter (λ c, isHead c = true) cells) = 1%nat ∧
  length (filter (λ c, isFood c = true) cells) = 1%nat ∧
  Forall (λ c, isHead c = true → isSnake c = true) cells.
Proof.
  intros Hg Hnd Hin Hfood cells. unfold cells, renderCells. cbv zeta.
  set (mk := λ index : Z, mkCell _ _ _ _).
  set (mkp := λ p : Point,
         mkCell (keyOf p)
           (bool_decide (keyOf p ∈ (list_to_set (keyOf <$> head :: rest)
                                     : gset string)))
           (bool_decide (keyOf p = keyOf head))
           (bool_decide (keyOf p = keyOf food))).
  assert (Hmk : mk <$> seqZ 0 (gridSize * gridSize)
                = mkp <$> (pointOfIndex gridSize
                             <$> seqZ 0 (gridSize * gridSize))).
  { by rewrite <- list_fmap_compose. }
  rewrite Hmk.
  split; [by rewrite !length_fmap, length_seqZ|].
  split.
  { rewrite <- list_fmap_compose.
    change (key ∘ mkp) with keyOf.
    apply NoDup_fmap; [intros p q; apply keyOf_inj|].
    rewrite (indexPoints_perm gridSize Hg). apply NoDup_gridCells. }
  split.
  { rewrite length_filter_fmap. cbn [isSnake mkp].
    rewrite <- (count_indexPoints gridSize (head :: rest)) by done.
    f_equal. apply list_filter_iff. intros p.
    by rewrite bool_decide_eq_true, elem_of_keys. }
  split.
  { rewrite length_filter_fmap. cbn [isHead mkp].
    etrans; [|apply (count_indexPoints gridSize [head]);
               [done|apply NoDup_singleton|by inversion Hin; constructor]].
    f_equal. apply list_filter_iff. intros p.
    rewrite bool_decide_eq_true, list_elem_of_singleton.
    split; [apply keyOf_inj | by intros ->]. }
  split.
  { rewrite length_filter_fmap. cbn [isFood mkp].
    etrans; [|apply (count_indexPoints gridSize [food]);
               [done|apply NoDup_singleton|by constructor]].
    f_equal. apply list_filter_iff. intros p.
    rewrite bool_decide_eq_true, list_elem_of_singleton.
    split; [apply keyOf_inj | by intros ->]. }
  apply Forall_fmap, Forall_forall. intros p _. cbn [isHead isSnake mkp compose].
  rewrite !bool_decide_eq_true. intros Hk. apply keyOf_inj in Hk as ->.
  apply (proj2 (elem_of_keys head (head :: rest))), list_elem_of_here.
Qed.

End BoardProps.

(** ** Touch controls *)

Section TouchProps.

Import Touch.

Lemma Qgtb_lt (x y : Q) : Qgtb x y = true ↔ (y < x)%Q.
Proof.
  unfold Qgtb. rewrite negb_true_iff, <- not_true_iff_false, Qle_bool_iff.
  split; [apply Qnot_le_lt | apply Qlt_not_le].
Qed.

Lemma Qgtb_le (x y : Q) : Qgtb x y = false ↔ (x <= y)%Q.
Proof. unfold Qgtb. by rewrite negb_false_iff, Qle_bool_iff. Qed.

(** X19: a swipe gives a direction exactly when it is longer than 30 px
    along one axis at least; the direction is horizontal when the
    horizontal displacement is the larger one and exceeds 30 px, and
    vertical otherwise, ties included. *)
Theorem swipeDir_threshold (deltaX deltaY : Q) :
  (swipeDir deltaX deltaY = None
   ↔ (Qabs deltaX <= 30)%Q ∧ (Qabs deltaY <= 30)%Q) ∧
  ((Qabs deltaY < Qabs deltaX)%Q → (30 < Qabs deltaX)%Q →
   swipeDir deltaX deltaY
   = Some (if Qgtb deltaX 0 then RIGHT else LEFT)) ∧
  ((Qabs deltaX <= Qabs deltaY)%Q → (30 < Qabs deltaY)%Q →
   swipeDir deltaX deltaY
   = Some (if Qgtb deltaY 0 then DOWN else UP)).
Proof.
  unfold swipeDir. cbv zeta.
  set (a := Qabs deltaX). set (b := Qabs deltaY).
  destruct (Qgtb a b) eqn:Hxy; destruct (Qgtb a 30) eqn:Hx;
    destruct (Qgtb b 30) eqn:Hy; cbn [andb];
    repeat match goal with
      | H : Qgtb _ _ = true |- _ => apply Qgtb_lt in H
      | H : Qgtb _ _ = false |- _ => apply Qgtb_le in H
      end;
    (split; [split; [intros Hnone; first [done | split; lra]
                    |intros [Hx' Hy']; first [done | exfalso; lra]]|]);
    (split; intros H1 H2; first [done | exfalso; lra]).
Qed.

(** X20: like a key, a swipe or a press on the D-pad never turns the snake
    round and leaves the snake and the game-over flag as they are; a touch
    that ends with no start recorded, or after a move of 30 px or less on
    both axes, changes nothing at all. *)
Theorem touch_never_reverses (touchStart : option (Q * Q))
    (clientX clientY : Q) (direction : Direction) (st : Driver.GameState) :
  let swiped := handleTouchEnd touchStart clientX clientY st in
  let pressed := handleDPadPress direction st in
  Driver.directionRef swiped ≠ Driver.OPPOSITES (Driver.directionRef st) ∧
  Driver.directionRef pressed ≠ Driver.OPPOSITES (Driver.directionRef st) ∧
  Driver.snake swiped = Driver.snake st ∧
  Driver.snake pressed = Driver.snake st ∧
  Driver.gameOver swiped = Driver.gameOver st ∧
  Driver.gameOver pressed = Driver.gameOver st ∧
  handleTouchEnd None clientX clientY st = st ∧
  (∀ x y : Q, touchStart = Some (x, y) →
     (Qabs (clientX - x) <= 30)%Q → (Qabs (clientY - y) <= 30)%Q →
     swiped = st).
Proof.
  assert (Hguard : ∀ d,
    let st' :=
      if negb (Driver.Direction_eqb (Driver.OPPOSITES d)
                 (Driver.directionRef st))
      then Driver.mkState (Driver.boardPreset st) (Driver.snake st)
             (Driver.food st) (Driver.gameOver st) (Driver.score st)
             (Driver.speedLabel st) d (Driver.running st)
             (Driver.msPerTickRef st)
      else st in
    Driver.directionRef st' ≠ Driver.OPPOSITES (Driver.directionRef st) ∧
    Driver.snake st' = Driver.snake st ∧
    Driver.gameOver st' = Driver.gameOver st).
  { intros d. cbv zeta. destruct d, (Driver.directionRef st) eqn:Hdir;
      simpl; rewrite ?Hdir; done. }
  assert (Hstay : Driver.directionRef st
                  ≠ Driver.OPPOSITES (Driver.directionRef st))
    by by destruct (Driver.directionRef st).
  assert (Hswipe :
    Driver.directionRef (handleTouchEnd touchStart clientX clientY st)
    ≠ Driver.OPPOSITES (Driver.directionRef st) ∧
    Driver.snake (handleTouchEnd touchStart clientX clientY st)
    = Driver.snake st ∧
    Driver.gameOver (handleTouchEnd touchStart clientX clientY st)
    = Driver.gameOver st).
  { unfold handleTouchEnd. destruct touchStart as [[x y]|]; [|done].
    cbv zeta. destruct (swipeDir _ _) as [d|]; [apply Hguard | done]. }
  destruct Hswipe as (? & ? & ?), (Hguard direction) as (? & ? & ?).
  do 6 (split; [done|]). split; [done|].
  intros x y -> Hx Hy. cbv zeta. unfold handleTouchEnd.
  assert (Hnone : swipeDir (clientX - x) (clientY - y) = None).
  { unfold swipeDir. cbv zeta.
    rewrite (proj2 (Qgtb_le (Qabs (clientX - x)) 30) Hx).
    rewrite (proj2 (Qgtb_le (Qabs (clientY - y)) 30) Hy).
    by rewrite andb_false_r. }
  by rewrite Hnone.
Qed.

End TouchProps.

(** ** Powers of 0.95 *)

Section IntervalFormula.

Import Driver.

Implicit Types (st : GameState).

Lemma pow95_range (k : Z) :
  0 ≤ k → (0 < 0.95 ^ k)%Q ∧ (0.95 ^ k <= 1)%Q.
Proof.
  intros Hk. split; [by apply Qpower_0_lt|].
  revert k Hk. apply natlike_ind; [done|].
  intros k Hk IH. unfold Z.succ.
  rewrite Qpower_plus by done. rewrite Qpower_1_r.
  assert (Hpos : (0 < 0.95 ^ k)%Q) by by apply Qpower_0_lt.
  apply Qle_trans with (1 * 0.95)%Q; [|done].
  apply Qmult_le_compat_r; done.
Qed.

End IntervalFormula.

(** ** The animation frame *)

Section FrameProps.

Import Driver Frame.

Implicit Types (st : GameState) (rng : nat → Q) (fuel n k j : nat)
  (food head : Point) (rest : list Point).

(** [Driver.tick] is the updater whose closure holds the food of the
    state. *)
Lemma tick_updater st rng fuel n :
  tick st rng fuel n = updater (Driver.food st) st rng fuel n.
Proof. reflexivity. Qed.

Lemma plays_play st st' : plays st st' → play st st'.
Proof.
  intros [st0 st1 rng fuel n n' _ _ Htick|st0 d|st0].
  - rewrite tick_updater in Htick. by eapply play_update.
  - apply play_key.
  - apply play_pause.
Qed.

(** What an updater does to each field, by the three cases of the step. *)
Lemma updater_cases food st rng fuel n st' n' :
  updater food st rng fuel n = (Returns st', n') →
  ∃ r, stepSnake (Driver.snake st) (directionRef st) food (gridSize st)
       = Some r ∧
       boardPreset st' = boardPreset st ∧
       directionRef st' = directionRef st ∧
       ((collision r = true ∧ Driver.snake st' = Driver.snake st
         ∧ Driver.food st' = Driver.food st ∧ score st' = score st
         ∧ msPerTickRef st' = msPerTickRef st ∧ gameOver st' = true)
        ∨ (collision r = false ∧ ate r = true
           ∧ Driver.snake st' = Game.snake r
           ∧ score st' = score st + 1
           ∧ msPerTickRef st' = Qmax 40 (msPerTickRef st * 0.95)
           ∧ gameOver st' = gameOver st)
        ∨ (collision r = false ∧ ate r = false
           ∧ Driver.snake st' = Game.snake r
           ∧ Driver.food st' = Driver.food st ∧ score st' = score st
           ∧ msPerTickRef st' = msPerTickRef st
           ∧ gameOver st' = gameOver st)).
Proof.
  unfold updater.
  destruct (stepSnake _ _ _ _) as [r|] eqn:Hstep; [|done].
  intros Hupd. exists r. split; [done|]. revert Hupd.
  destruct (collision r) eqn:Hcol.
  { intros [= <- _]. split; [done|]. split; [done|]. left. by cbn. }
  destruct (ate r) eqn:Hate.
  - destruct (randPointExcluding _ _ _ _ _) as [[p|msg|] m]; [|done..].
    intros [= <- _]. split; [done|]. split; [done|]. right. left. by cbn.
  - intros [= <- _]. split; [done|]. split; [done|]. right. right. by cbn.
Qed.

(** *** The shape of the snake *)





(** *** Frames *)


(** The updaters of a frame are steps of play. *)
Lemma updates_play k food st rng fuel n st' n' :
  updates k food st rng fuel n = (Returns st', n') → rtc play st st'.
Proof.
  revert st n. induction k as [|k IH]; intros st n; cbn [updates].
  - by intros [= <- _].
  - destruct (updater food st rng fuel n) as [[st1|msg|] n1] eqn:Hupd; [|done..].
    intros Hrest. eapply rtc_l; [by eapply play_update | by eapply IH].
Qed.

Lemma loop_play k food st rng fuel n st' n' :
  loop k food st rng fuel n = (Returns st', n') → rtc play st st'.
Proof.
  unfold loop. destruct (gameOver st); [by intros [= <- _]|].
  destruct (negb (running st)); [by intros [= <- _]|].
  apply updates_play.
Qed.

Lemma follow_play (keys : list (option Direction)) st rng fuel n st' n' :
  follow keys st rng fuel n = (Returns st', n') → rtc play st st'.
Proof.
  revert st n. induction keys as [|key keys IH]; intros st n; cbn [follow].
  - by intros [= <- _].
  - cbv zeta.
    set (st1 := match key with
                | Some d => handleKeyDown d st
                | None => st
                end).
    assert (Hkey : rtc play st st1).
    { unfold st1. destruct key; [apply rtc_once, play_key | apply rtc_refl]. }
    destruct (loop 1 (Driver.food st1) st1 rng fuel n) as [[st2|msg|] n2]
      eqn:Hloop; [|done..].
    intros Hrest. etrans; [exact Hkey|].
    etrans; [by eapply loop_play | by eapply IH].
Qed.





(** *** The interval *)

Lemma play_score_interval st st' :
  play st st' →
  (score st' = score st + 1
   ∧ msPerTickRef st' = Qmax 40 (msPerTickRef st * 0.95))
  ∨ (score st' = score st ∧ msPerTickRef st' = msPerTickRef st).
Proof.
  intros [st0 st1 food rng fuel n n' Hupd|st0 d|st0].
  - apply updater_cases in Hupd as (r & _ & _ & _ & Hcase).
    destruct Hcase as [(_ & _ & _ & Hs & Hm & _)
                      |[(_ & _ & _ & Hs & Hm & _)|(_ & _ & _ & _ & Hs & Hm & _)]].
    + by right.
    + by left.
    + by right.
  - right. unfold handleKeyDown. by case_match.
  - by right.
Qed.

(** Five percent off keeps the order of two intervals floored at 40 ms. *)
Lemma decay_mono (y m : Q) :
  (y <= Qmax 40 m)%Q → (Qmax 40 (y * 0.95) <= Qmax 40 (m * 0.95))%Q.
Proof.
  intros Hy. apply Q.max_lub; [apply Q.le_max_l|].
  destruct (Q.max_spec 40 m) as [[Hlt Hmax]|[Hle Hmax]]; rewrite Hmax in Hy.
  - apply Qle_trans with (m * 0.95)%Q; [lra | apply Q.le_max_r].
  - apply Qle_trans with 40%Q; [lra | apply Q.le_max_l].
Qed.

(** Over play from an interval of at most [bound], the score does not go
    down, the interval is unchanged while no point is scored, and after
    [k] points it is at least 40 ms and at most the larger of 40 ms and
    [bound] times 0.95 to the [k]. *)
Lemma play_interval_bound (bound : Q) st st' :
  rtc play st st' → (msPerTickRef st <= bound)%Q →
  score st ≤ score st' ∧
  (msPerTickRef st'
   <= Qmax 40 (bound * 0.95 ^ (score st' - score st)))%Q ∧
  (score st < score st' → (40 <= msPerTickRef st')%Q) ∧
  (score st' = score st → msPerTickRef st' = msPerTickRef st).
Proof.
  intros Hplay Hbound. revert st' Hplay.
  apply (rtc_ind_r (λ st', _)); [|intros st1 st2 Hplay Hstep IH].
  - split; [done|]. rewrite Z.sub_diag. split; [|split; [lia | done]].
    apply Qle_trans with bound; [done|].
    apply Qle_trans with (bound * 1)%Q; [lra | apply Q.le_max_r].
  - destruct IH as (Hscore & Hms & Hfloor & Hsame).
    destruct (play_score_interval _ _ Hstep) as [[Hs Hm]|[Hs Hm]].
    + split; [lia|]. rewrite Hm. split; [|split; [|lia]].
      * replace (score st2 - score st) with ((score st1 - score st) + 1)
          by lia.
        rewrite Qpower_plus by done. rewrite Qmult_assoc.
        by apply decay_mono.
      * intros _. apply Q.le_max_l.
    + rewrite Hs, Hm. split; [done|]. split; [done|]. split; done.
Qed.

(** X21: over play (updaters, direction requests, pauses) the score does
    not go down; from an interval of at most 300 ms, the largest preset, 40
    points take the interval to the floor of 40 ms; from 42 ms or less one
    point does; and at 40 ms the interval stays. In each case the product
    that the floor replaces is below 40 by far more than the rounding of a
    binary64 product, so that the code holds exactly 40 as well. *)
Theorem interval_reaches_floor st st' :
  rtc play st st' →
  score st ≤ score st' ∧
  ((msPerTickRef st <= 300)%Q → score st + 40 ≤ score st' →
   (msPerTickRef st' == 40)%Q) ∧
  ((msPerTickRef st <= 42)%Q → score st < score st' →
   (msPerTickRef st' == 40)%Q) ∧
  ((msPerTickRef st == 40)%Q → (msPerTickRef st' == 40)%Q).
Proof.
  intros Hplay.
  assert (Hfloor : ∀ (bound : Q) (k0 : Z),
            0 < k0 → (0 <= bound)%Q → (bound * 0.95 ^ k0 <= 40)%Q →
            (msPerTickRef st <= bound)%Q → score st + k0 ≤ score st' →
            (msPerTickRef st' == 40)%Q).
  { intros bound k0 Hk0 Hpos Hlow Hbound Hk.
    destruct (play_interval_bound bound st st' Hplay Hbound)
      as (_ & Hms & Hge & _).
    apply Qle_antisym; [|apply Hge; lia].
    eapply Qle_trans; [exact Hms|]. apply Q.max_lub; [apply Qle_refl|].
    replace (score st' - score st) with (k0 + (score st' - score st - k0))
      by lia.
    rewrite Qpower_plus by done. rewrite Qmult_assoc.
    destruct (pow95_range (score st' - score st - k0) ltac:(lia))
      as [Hc0 Hc1].
    destruct (pow95_range k0 ltac:(lia)) as [Hd0 _].
    assert (Hnn : (0 <= bound * 0.95 ^ k0)%Q) by nra.
    nra. }
  split; [by apply (play_interval_bound (msPerTickRef st) st st' Hplay),
            Qle_refl|].
  split; [|split].
  - intros Hbound Hk. apply (Hfloor 300%Q 40); [lia|done| |done|done].
    by vm_compute.
  - intros Hbound Hk. apply (Hfloor 42%Q 1); [lia|done| |done|lia].
    by vm_compute.
  - intros Hat.
    destruct (Z.eq_dec (score st') (score st)) as [Heq|Hne].
    + destruct (play_interval_bound (msPerTickRef st) st st' Hplay
                  (Qle_refl _)) as (_ & _ & _ & Hsame).
      by rewrite (Hsame Heq).
    + destruct (play_interval_bound (msPerTickRef st) st st' Hplay
                  (Qle_refl _)) as (Hscore & _).
      apply (Hfloor 42%Q 1); [lia|done|by vm_compute| |lia].
      rewrite Hat. done.
Qed.

End FrameProps.

(** ** The further properties on cases *)

Lemma opposite_moves_cancel_witness :
  inGrid 10 (0, 9) ∧
  newHeadOf (newHeadOf (0, 9) RIGHT 10) (Driver.OPPOSITES RIGHT) 10 = (0, 9).
Proof.
  assert (Hin : inGrid 10 (0, 9)) by (by apply (bool_decide_unpack _)).
  split; [exact Hin|]. exact (opposite_moves_cancel (0, 9) RIGHT 10 Hin).
Defined.

Lemma move_changes_cell_witness :
  2 ≤ 10 ∧ inGrid 10 (0, 0) ∧
  newHeadOf (0, 0) UP 10 ≠ (0, 0) ∧ inGrid 10 (newHeadOf (0, 0) UP 10) ∧
  ((newHeadOf (0, 0) UP 10).1 = 0 ∨ (newHeadOf (0, 0) UP 10).2 = 0).
Proof.
  assert (Hg : 2 ≤ 10) by lia.
  assert (Hin : inGrid 10 (0, 0)) by (by apply (bool_decide_unpack _)).
  split; [exact Hg|]. split; [exact Hin|].
  exact (move_changes_cell (0, 0) UP 10 Hg Hin).
Defined.

Lemma walk_around_witness :
  inGrid 4 (1, 2) ∧ walk (Z.to_nat 4) (1, 2) LEFT 4 = (1, 2).
Proof.
  assert (Hin : inGrid 4 (1, 2)) by (by apply (bool_decide_unpack _)).
  split; [exact Hin|]. exact (walk_around (1, 2) LEFT 4 Hin).
Defined.

Lemma stepSnake_no_repeated_cell_witness :
  NoDup [(0, 0); (0, 1); (1, 1); (1, 0)] ∧
  ∃ r, stepSnake [(0, 0); (0, 1); (1, 1); (1, 0)] DOWN (9, 9) 10 = Some r ∧
       NoDup (snake r).
Proof.
  assert (Hnd : NoDup [(0, 0); (0, 1); (1, 1); (1, 0)])
    by (by apply (bool_decide_unpack _)).
  split; [exact Hnd|].
  exact (stepSnake_no_repeated_cell (0, 0) [(0, 1); (1, 1); (1, 0)] DOWN
           (9, 9) 10 Hnd).
Defined.

Lemma ate_iff_head_on_food_witness :
  stepSnake [(0, 1); (0, 0)] RIGHT (0, 2) 10
  = Some (mkStep [(0, 2); (0, 1); (0, 0)] true false) ∧
  (true = true ↔ false = false ∧ newHeadOf (0, 1) RIGHT 10 = (0, 2)) ∧
  (true = true → [(0, 2); (0, 1); (0, 0)] !! 0%nat = Some (0, 2)).
Proof.
  assert (Hstep : stepSnake [(0, 1); (0, 0)] RIGHT (0, 2) 10
                  = Some (mkStep [(0, 2); (0, 1); (0, 0)] true false))
    by (vm_compute; reflexivity).
  split; [exact Hstep|].
  exact (ate_iff_head_on_food (0, 1) [(0, 0)] RIGHT (0, 2) 10 _ Hstep).
Defined.

Lemma single_segment_never_collides_witness :
  2 ≤ 10 ∧ inGrid 10 (3, 3) ∧
  stepSnake [(3, 3)] UP (2, 3) 10
  = Some (mkStep (if bool_decide (newHeadOf (3, 3) UP 10 = (2, 3))
                  then [newHeadOf (3, 3) UP 10; (3, 3)]
                  else [newHeadOf (3, 3) UP 10])
            (bool_decide (newHeadOf (3, 3) UP 10 = (2, 3))) false).
Proof.
  assert (Hg : 2 ≤ 10) by lia.
  assert (Hin : inGrid 10 (3, 3)) by (by apply (bool_decide_unpack _)).
  split; [exact Hg|]. split; [exact Hin|].
  exact (single_segment_never_collides (3, 3) UP (2, 3) 10 Hg Hin).
Defined.

Lemma placed_food_inGrid_witness :
  unitSource (λ _, 0.55%Q) ∧ 0 < 10 ∧
  randPointExcluding (list_to_set (keyOf <$> Driver.INITIAL_SNAKE)) 10
    (λ _, 0.55%Q) 1 0 = (Returns (5, 5), 2%nat) ∧
  inGrid 10 (5, 5).
Proof.
  assert (Hrng : unitSource (λ _, 0.55%Q)) by (by intros n; split).
  assert (Hg : 0 < 10) by lia.
  assert (Hret : randPointExcluding
                   (list_to_set (keyOf <$> Driver.INITIAL_SNAKE)) 10
                   (λ _, 0.55%Q) 1 0 = (Returns (5, 5), 2%nat))
    by (vm_compute; reflexivity).
  split; [exact Hrng|]. split; [exact Hg|]. split; [exact Hret|].
  exact (placed_food_inGrid _ 10 _ 1%nat 0%nat (5, 5) 2%nat Hrng Hg Hret).
Defined.

Lemma room_lets_the_loop_end_witness :
  0 < 4 ∧ Z.of_nat (size (allCellsBut 4 (3, 2))) < 4 * 4 ∧
  ∃ p rng,
    inGrid 4 p ∧ (keyOf p ∉ allCellsBut 4 (3, 2)) ∧ unitSource rng ∧
    ∀ fuel, (0 < fuel)%nat →
      randPointExcluding (allCellsBut 4 (3, 2)) 4 rng fuel 0
      = (Returns p, 2%nat).
Proof.
  assert (Hg : 0 < 4) by lia.
  assert (Hroom : Z.of_nat (size (allCellsBut 4 (3, 2))) < 4 * 4)
    by (vm_compute; reflexivity).
  split; [exact Hg|]. split; [exact Hroom|].
  exact (room_lets_the_loop_end (allCellsBut 4 (3, 2)) 4 0%nat Hg Hroom).
Defined.

Lemma two_requests_reverse_and_end_game_witness :
  ∃ st'',
    Driver.tick
      (Driver.handleKeyDown LEFT
         (Driver.handleKeyDown UP
            (Driver.mkState Driver.classic Driver.INITIAL_SNAKE (5, 5) false
               0 Driver.normal RIGHT true 200)))
      (λ _, 0%Q) 1 0 = (Returns st'', 0%nat) ∧
    Driver.gameOver st'' = true.
Proof.
  set (st := Driver.mkState Driver.classic Driver.INITIAL_SNAKE (5, 5) false
               0 Driver.normal RIGHT true 200).
  assert (Hnd : NoDup (Driver.snake st)) by (by apply (bool_decide_unpack _)).
  destruct (two_requests_reverse_and_end_game st (0, 2) (0, 1) [(0, 0)] UP
              (λ _, 0%Q) 1%nat 0%nat eq_refl ltac:(discriminate) Hnd eq_refl
              ltac:(discriminate) ltac:(discriminate))
    as (_ & st'' & Htick & Hover & _).
  exists st''. split; [exact Htick | exact Hover].
Defined.



Lemma recordHighScore_keeps_maximum_witness :
  BestScore.getHighScore (Some {[BestScore.STORAGE_KEY := "5"]}) = Some 5 ∧
  let '(highScore', store') :=
    BestScore.recordHighScore true 9 (Some 5)
      (Some {[BestScore.STORAGE_KEY := "5"]}) in
  highScore' = Some (Z.max 5 9) ∧
  BestScore.getHighScore store' = highScore' ∧
  (true = false ∨ 9 ≤ 5 → store' = Some {[BestScore.STORAGE_KEY := "5"]}).
Proof.
  assert (Hstored : BestScore.getHighScore
                      (Some {[BestScore.STORAGE_KEY := "5"]}) = Some 5)
    by (vm_compute; reflexivity).
  split; [exact Hstored|].
  exact (recordHighScore_keeps_maximum true 9 5
           {[BestScore.STORAGE_KEY := "5"]} Hstored).
Defined.

Lemma unreadable_best_score_sticks_witness :
  ({[BestScore.STORAGE_KEY := " best"]} : gmap string string)
    !! BestScore.STORAGE_KEY = Some " best" ∧
  BestScore.trimStart " best" = "best" ∧
  BestScore.getHighScore (Some {[BestScore.STORAGE_KEY := " best"]}) = None.
Proof.
  assert (Hitem : ({[BestScore.STORAGE_KEY := " best"]} : gmap string string)
                    !! BestScore.STORAGE_KEY = Some " best")
    by (vm_compute; reflexivity).
  split; [exact Hitem|]. split; [reflexivity|].
  exact (proj1 (unreadable_best_score_sticks _ " best" "b"%char "est" Hitem
                  eq_refl ltac:(discriminate) ltac:(discriminate) eq_refl)).
Defined.

Lemma updateBoardMetrics_bounds_witness :
  0 < 10 ∧
  let '(boardSize, cellSize) :=
    Board.updateBoardMetrics (Some 500%Q) 800 900 10 60 in
  let room := Qmin (default 800%Q (Some 500%Q)) (900 * 0.72) in
  24 ≤ cellSize ≤ Z.max 24 60 ∧
  boardSize = cellSize * 10 ∧
  ((inject_Z (24 * 10) <= room)%Q → (inject_Z boardSize <= room)%Q).
Proof.
  assert (Hg : 0 < 10) by lia.
  split; [exact Hg|].
  exact (updateBoardMetrics_bounds (Some 500%Q) 800 900 10 60 Hg).
Defined.

Lemma board_shows_the_snake_witness :
  0 < 10 ∧ NoDup Driver.INITIAL_SNAKE ∧
  Forall (inGrid 10) Driver.INITIAL_SNAKE ∧ inGrid 10 (5, 5) ∧
  length (filter (λ c, Board.isSnake c = true)
            (Board.renderCells (0, 2) [(0, 1); (0, 0)] (5, 5) 10)) = 3%nat.
Proof.
  assert (Hg : 0 < 10) by lia.
  assert (Hnd : NoDup Driver.INITIAL_SNAKE) by (by apply (bool_decide_unpack _)).
  assert (Hin : Forall (inGrid 10) Driver.INITIAL_SNAKE)
    by (by apply (bool_decide_unpack _)).
  assert (Hfood : inGrid 10 (5, 5)) by (by apply (bool_decide_unpack _)).
  split; [exact Hg|]. split; [exact Hnd|]. split; [exact Hin|].
  split; [exact Hfood|].
  exact (proj1 (proj2 (proj2 (board_shows_the_snake (0, 2) [(0, 1); (0, 0)]
                                (5, 5) 10 Hg Hnd Hin Hfood)))).
Defined.



(** A game at the preset [slow] in which each of the first 40 ticks eats:
    the snake runs along [serpentine 10] and every food is placed on the
    next cell of that path. The interval has gone from 300 ms to 40 ms. *)
Lemma interval_reaches_floor_witness :
  ∃ st' n',
    Frame.follow serpentineKeys slowStart
      (sourceAlong (drop 4 (serpentine 10)) 10) 1 0 = (Returns st', n') ∧
    (Driver.score st' = 40 ∧ length (Driver.snake st') = 43%nat
     ∧ Driver.snake st' !! 0%nat = Some (4, 2)) ∧
    rtc Frame.play slowStart st' ∧
    (Driver.msPerTickRef slowStart <= 300)%Q ∧
    Driver.score slowStart + 40 ≤ Driver.score st' ∧
    (Driver.msPerTickRef st' == 40)%Q.
Proof.
  assert (Hrun : ∃ st' n',
            Frame.follow serpentineKeys slowStart
              (sourceAlong (drop 4 (serpentine 10)) 10) 1 0
            = (Returns st', n') ∧
            (Driver.score st' = 40 ∧ length (Driver.snake st') = 43%nat
             ∧ Driver.snake st' !! 0%nat = Some (4, 2))).
  { vm_compute. eexists _, _. split; [reflexivity|].
    split; [reflexivity|]. split; reflexivity. }
  destruct Hrun as (st' & n' & Hfollow & Hend).
  assert (Hscore : Driver.score slowStart + 40 ≤ Driver.score st').
  { destruct Hend as [-> _]. by vm_compute. }
  assert (Hplay : rtc Frame.play slowStart st')
    by exact (follow_play _ _ _ _ _ _ _ Hfollow).
  assert (Hbound : (Driver.msPerTickRef slowStart <= 300)%Q) by done.
  exists st', n'. split; [exact Hfollow|]. split; [exact Hend|].
  split; [exact Hplay|].
  split; [exact Hbound|]. split; [exact Hscore|].
  exact (proj1 (proj2 (interval_reaches_floor slowStart st' Hplay))
           Hbound Hscore).
Defined.
